(** * Signature ingestion and export (Parser_Arc): a shallow embedding

    The repository holds three programs that share one PostgreSQL table,
    [signatures]:

    - [http.go]   downloads a suricata archive and extracts records with the
                  message-bearing grammar;
    - [ftp.go]    downloads a snort archive and extracts records with the
                  port-bearing grammar;
    - [export.go] renders every live row into a text artifact.

    Go strings are byte sequences, so text is modelled by [string] (a list of
    8-bit [ascii]).  The table is a list of rows whose columns are nullable,
    as the [CREATE TABLE] statement declares them.  Timestamps are integers;
    [CURRENT_TIMESTAMP] is a parameter of each statement.  Transport,
    archive unpacking, configuration and logging are left out. *)

From Stdlib Require Import Bool Arith ZArith List Ascii String Lia.
Import ListNotations.

Local Open Scope string_scope.
Local Open Scope list_scope.

(** ** Bytes and the functions of Go's [strings] package used by the code *)

Module Strs.

Definition byte (n : nat) : ascii := ascii_of_nat n.

Definition nl : string := String (byte 10) EmptyString.
Definition dq : string := String (byte 34) EmptyString.

(** [strings.HasPrefix]. *)
Fixpoint HasPrefix (s p : string) : bool :=
  match p, s with
  | EmptyString, _ => true
  | String a p', String b s' => Ascii.eqb a b && HasPrefix s' p'
  | String _ _, EmptyString => false
  end.

(** [s[n:]] for [n <= len(s)]. *)
Fixpoint drop (n : nat) (s : string) : string :=
  match n, s with
  | O, _ => s
  | S n', String _ s' => drop n' s'
  | S _, EmptyString => EmptyString
  end.

(** [s[:n]] for [n <= len(s)]. *)
Fixpoint take (n : nat) (s : string) : string :=
  match n, s with
  | O, _ => EmptyString
  | S n', String a s' => String a (take n' s')
  | S _, EmptyString => EmptyString
  end.

(** [strings.Index]: byte offset of the first occurrence, [-1] if none. *)
Fixpoint Index (s sub : string) : Z :=
  if HasPrefix s sub then 0%Z
  else match s with
       | EmptyString => (-1)%Z
       | String _ s' =>
           let i := Index s' sub in
           if (i <? 0)%Z then (-1)%Z else (i + 1)%Z
       end.

(** [sub] occurs in [s]: some bytes, then [sub], then the rest. *)
Definition occurs (sub s : string) : Prop :=
  exists a b, s = (a ++ sub ++ b)%string.

(** [strings.Contains]. *)
Definition Contains (s sub : string) : bool := (0 <=? Index s sub)%Z.

(** Go slice expressions on strings.  An index out of range panics; the
    panic is [None]. *)
Definition slice_from (s : string) (i : Z) : option string :=
  if ((0 <=? i) && (i <=? Z.of_nat (length s)))%Z
  then Some (drop (Z.to_nat i) s) else None.

Definition slice_to (s : string) (j : Z) : option string :=
  if ((0 <=? j) && (j <=? Z.of_nat (length s)))%Z
  then Some (take (Z.to_nat j) s) else None.

(** [strings.ReplaceAll] for a non-empty [old]: occurrences are replaced
    from the left and do not overlap.  [skip] counts the bytes of an
    occurrence still to be passed over. *)
Fixpoint replace_from (skip : nat) (s old new : string) : string :=
  match s with
  | EmptyString => EmptyString
  | String a s' =>
      match skip with
      | S k => replace_from k s' old new
      | O =>
          if HasPrefix s old
          then new ++ replace_from (length old - 1) s' old new
          else String a (replace_from 0 s' old new)
      end
  end.

Definition ReplaceAll (s old new : string) : string := replace_from 0 s old new.

(** [strings.TrimPrefix]. *)
Definition TrimPrefix (s p : string) : string :=
  if HasPrefix s p then drop (length p) s else s.

(** [strings.Split] for a non-empty [sep]: the pieces between the
    occurrences of [sep], taken from the left without overlap.  [cur] is the
    piece being read, [skip] as in [replace_from]. *)
Fixpoint split_from (skip : nat) (s sep cur : string) : list string :=
  match s with
  | EmptyString => [cur]
  | String a s' =>
      match skip with
      | S k => split_from k s' sep cur
      | O =>
          if HasPrefix s sep
          then cur :: split_from (length sep - 1) s' sep EmptyString
          else split_from 0 s' sep (cur ++ String a EmptyString)
      end
  end.

Definition Split (s sep : string) : list string :=
  split_from 0 s sep EmptyString.

(** Every byte of [s] satisfies [p]. *)
Fixpoint all_bytes (p : ascii -> bool) (s : string) : bool :=
  match s with
  | EmptyString => true
  | String a s' => p a && all_bytes p s'
  end.

(** [strings.Join(xs, "")]. *)
Definition Join (xs : list string) : string :=
  fold_right append EmptyString xs.

End Strs.

(** ** The fragment of Go's [regexp] the two grammars use

    Go's engine returns the leftmost match and, among the matches that start
    there, the one a backtracking search finds first.  The matcher below is
    that backtracking search, written with a continuation.

    The engine works on UTF-8 runes, the model on bytes.  Every single-rune
    item of the two patterns either is an ASCII byte or accepts every
    non-ASCII rune, with one exception: under the [i] flag the letter [s]
    also matches U+017F and the class [\w] also matches U+017F and U+212A
    (simple case folding).  An item therefore accepts one byte of a class or
    one of a few fixed multi-byte encodings. *)

Module Regexp.
Import Strs.

Record atom : Type := Atom {
  byte_ok : ascii -> bool;
  folded : list string
}.

Definition strip_prefix (p s : string) : option string :=
  if HasPrefix s p then Some (drop (length p) s) else None.

Fixpoint strip_any (ps : list string) (s : string) : option string :=
  match ps with
  | [] => None
  | p :: ps' =>
      match p with
      | EmptyString => strip_any ps' s
      | String _ _ =>
          match strip_prefix p s with
          | Some s' => Some s'
          | None => strip_any ps' s
          end
      end
  end.

(** One step of an atom: the input left after the accepted rune. *)
Definition atom_step (a : atom) (s : string) : option string :=
  match s with
  | EmptyString => None
  | String b s' => if byte_ok a b then Some s' else strip_any (folded a) s
  end.

Inductive regex : Type :=
| Eps
| Sym (a : atom)
| Rep (greedy : bool) (least : nat) (a : atom)
| Cat (r1 r2 : regex)
| Alt (r1 r2 : regex)
| Grp (i : nat) (r : regex).

Definition caps := list string.

Fixpoint set_cap (i : nat) (v : string) (c : caps) : caps :=
  match i, c with
  | _, [] => []
  | O, _ :: c' => v :: c'
  | S i', x :: c' => x :: set_cap i' v c'
  end.

(** The text consumed between [s] and its suffix [rest]. *)
Definition consumed (s rest : string) : string :=
  take (length s - length rest) s.

Section Matcher.
Variable R : Type.

(** Repetition of one atom.  [fuel] bounds the number of iterations by the
    length of the input; every iteration consumes at least one byte. *)
Fixpoint rep (fuel : nat) (greedy : bool) (least : nat) (a : atom)
    (s : string) (c : caps) (k : string -> caps -> option R) : option R :=
  if greedy then
    match
      match fuel with
      | O => None
      | S f =>
          match atom_step a s with
          | Some s' => rep f greedy (pred least) a s' c k
          | None => None
          end
      end
    with
    | Some x => Some x
    | None => match least with O => k s c | S _ => None end
    end
  else
    match match least with O => k s c | S _ => None end with
    | Some x => Some x
    | None =>
        match fuel with
        | O => None
        | S f =>
            match atom_step a s with
            | Some s' => rep f greedy (pred least) a s' c k
            | None => None
            end
        end
    end.

Fixpoint run (r : regex) (s : string) (c : caps)
    (k : string -> caps -> option R) : option R :=
  match r with
  | Eps => k s c
  | Sym a =>
      match atom_step a s with
      | Some s' => k s' c
      | None => None
      end
  | Rep greedy least a => rep (length s) greedy least a s c k
  | Cat r1 r2 => run r1 s c (fun s' c' => run r2 s' c' k)
  | Alt r1 r2 =>
      match run r1 s c k with
      | Some x => Some x
      | None => run r2 s c k
      end
  | Grp i r' => run r' s c (fun s' c' => k s' (set_cap i (consumed s s') c'))
  end.
End Matcher.

(** A match anchored at the start of [s]: the input left and the
    submatches, entry 0 being the whole match. [groups] is the number of
    capture groups. *)
Definition match_here (r : regex) (groups : nat) (s : string)
  : option (string * caps) :=
  run _ r s (repeat EmptyString (S groups))
      (fun rest c => Some (rest, set_cap 0 (consumed s rest) c)).

(** [FindAllStringSubmatch(s, -1)]: successive leftmost matches that do not
    overlap.  After an empty match the search moves on by one position. *)
Fixpoint find_all (fuel : nat) (r : regex) (groups : nat) (s : string)
  : list caps :=
  match fuel with
  | O => []
  | S f =>
      match match_here r groups s with
      | Some (rest, c) =>
          c :: (if Nat.ltb (length rest) (length s) then find_all f r groups rest
                else match s with
                     | EmptyString => []
                     | String _ s' => find_all f r groups s'
                     end)
      | None =>
          match s with
          | EmptyString => []
          | String _ s' => find_all f r groups s'
          end
      end
  end.

Definition FindAllStringSubmatch (r : regex) (groups : nat) (s : string)
  : list caps :=
  find_all (S (length s)) r groups s.

(** *** Atoms *)

Definition in_range (lo hi : nat) (b : ascii) : bool :=
  let n := nat_of_ascii b in ((lo <=? n) && (n <=? hi))%nat.

Definition is_upper (b : ascii) : bool := in_range 65 90 b.
Definition is_lower (b : ascii) : bool := in_range 97 122 b.
Definition is_digit (b : ascii) : bool := in_range 48 57 b.

Definition to_lower (b : ascii) : ascii :=
  if is_upper b then ascii_of_nat (nat_of_ascii b + 32) else b.

(** UTF-8 encodings of U+017F (long s) and U+212A (Kelvin sign). *)
Definition long_s : string := String (byte 197) (String (byte 191) EmptyString).
Definition kelvin : string :=
  String (byte 226) (String (byte 132) (String (byte 170) EmptyString)).

(** A literal byte, case sensitive. *)
Definition lit (b : ascii) : atom := Atom (Ascii.eqb b) [].

(** A literal byte under the [i] flag. *)
Definition lit_i (b : ascii) : atom :=
  Atom (fun x => Ascii.eqb (to_lower x) (to_lower b))
       (if Ascii.eqb (to_lower b) "s" then [long_s]
        else if Ascii.eqb (to_lower b) "k" then [kelvin] else []).

(** [\s] is [[\t\n\f\r ]]; [\S] is its complement. *)
Definition is_space (b : ascii) : bool :=
  let n := nat_of_ascii b in
  ((n =? 9) || (n =? 10) || (n =? 12) || (n =? 13) || (n =? 32))%nat.

Definition nonspace : atom := Atom (fun b => negb (is_space b)) [].

(** [\d]. *)
Definition digit : atom := Atom is_digit [].

(** [\w] is [[0-9A-Za-z_]]; under the [i] flag the class is closed under
    case folding. *)
Definition is_word (b : ascii) : bool :=
  is_digit b || is_upper b || is_lower b || (nat_of_ascii b =? 95)%nat.

Definition word_i : atom := Atom is_word [long_s; kelvin].

(** [.] with the [s] flag: any character. *)
Definition any_s : atom := Atom (fun _ => true) [].

(** [.] without the [s] flag: any character but a line feed. *)
Definition any : atom := Atom (fun b => negb (nat_of_ascii b =? 10)%nat) [].

(** A token: one byte or more, none of them white space. *)
Definition token (w : string) : Prop :=
  w <> EmptyString /\ all_bytes (fun b => negb (is_space b)) w = true.

(** No group of [r] has index [j]. *)
Fixpoint no_grp (j : nat) (r : regex) : bool :=
  match r with
  | Eps | Sym _ | Rep _ _ _ => true
  | Cat r1 r2 | Alt r1 r2 => no_grp j r1 && no_grp j r2
  | Grp i r' => negb (Nat.eqb i j) && no_grp j r'
  end.

(** *** Pattern builders *)

Fixpoint lits_i (s : string) : regex :=
  match s with
  | EmptyString => Eps
  | String b s' => Cat (Sym (lit_i b)) (lits_i s')
  end.

Fixpoint seq (rs : list regex) : regex :=
  match rs with
  | [] => Eps
  | r :: rs' => Cat r (seq rs')
  end.

Definition plus (a : atom) : regex := Rep true 1 a.
Definition lazy_star (a : atom) : regex := Rep false 0 a.

End Regexp.

(** ** The [signatures] table and the upsert statement

    [http.go] and [ftp.go] declare the same [Signature] struct and the same
    [saveToDB]; both are modelled once.  The surrogate key [id] (and the
    [details] column of [ftp.go]'s schema) are never read or written by a
    statement of the programs and are left out. *)

Module Store.

Record Signature : Type := mkSignature {
  Type_ : string;
  Proto : string;
  SrcIP : string;
  SrcPort : string;
  DstIP : string;
  DstPort : string;
  SID : string;
  Msg : string;
  Filename : string
}.

Definition timestamp := Z.

(** A row; [None] is SQL [NULL]. *)
Record Row : Type := mkRow {
  type_ : option string;
  proto : option string;
  src_ip : option string;
  src_port : option string;
  dst_ip : option string;
  dst_port : option string;
  sid : option string;
  msg : option string;
  filename : option string;
  created_at : option timestamp;
  updated_at : option timestamp;
  deleted_at : option timestamp
}.

Definition table := list Row.

(** *** SQL's three-valued logic; [None] is unknown *)

Definition sql_eq (a b : option string) : option bool :=
  match a, b with
  | Some x, Some y => Some (String.eqb x y)
  | _, _ => None
  end.

Definition sql_ne (a b : option string) : option bool :=
  match a, b with
  | Some x, Some y => Some (negb (String.eqb x y))
  | _, _ => None
  end.

Definition sql_or (a b : option bool) : option bool :=
  match a, b with
  | Some true, _ | _, Some true => Some true
  | Some false, Some false => Some false
  | _, _ => None
  end.

Definition sql_and (a b : option bool) : option bool :=
  match a, b with
  | Some false, _ | _, Some false => Some false
  | Some true, Some true => Some true
  | _, _ => None
  end.

(** A [WHERE] clause or a uniqueness check passes only on [true]. *)
Definition holds (v : option bool) : bool :=
  match v with
  | Some true => true
  | _ => false
  end.

(** *** The statement of [saveToDB] *)

(** The row proposed for insertion ([EXCLUDED]): the nine parameters, with
    [updated_at] given as [CURRENT_TIMESTAMP] and [created_at] taking its
    default, [CURRENT_TIMESTAMP]. *)
Definition excluded (now : timestamp) (sig : Signature) : Row :=
  {| type_ := Some (Type_ sig);
     proto := Some (Proto sig);
     src_ip := Some (SrcIP sig);
     src_port := Some (SrcPort sig);
     dst_ip := Some (DstIP sig);
     dst_port := Some (DstPort sig);
     sid := Some (SID sig);
     msg := Some (Msg sig);
     filename := Some (Filename sig);
     created_at := Some now;
     updated_at := Some now;
     deleted_at := None |}.

(** [ON CONFLICT (sid)]: the row violates [sid TEXT UNIQUE] against [r]. *)
Definition conflicts (e r : Row) : bool := holds (sql_eq (sid r) (sid e)).

(** The [WHERE] of [DO UPDATE]. *)
Definition update_where (r e : Row) : option bool :=
  sql_and (sql_eq (sid r) (sid e))
    (sql_or (sql_or (sql_or (sql_or (sql_or (sql_or (sql_or
       (sql_ne (type_ r) (type_ e))
       (sql_ne (proto r) (proto e)))
       (sql_ne (src_ip r) (src_ip e)))
       (sql_ne (src_port r) (src_port e)))
       (sql_ne (dst_ip r) (dst_ip e)))
       (sql_ne (dst_port r) (dst_port e)))
       (sql_ne (msg r) (msg e)))
       (sql_ne (filename r) (filename e))).

(** The [SET] of [DO UPDATE]. *)
Definition update_set (now : timestamp) (r e : Row) : Row :=
  {| type_ := type_ e;
     proto := proto e;
     src_ip := src_ip e;
     src_port := src_port e;
     dst_ip := dst_ip e;
     dst_port := dst_port e;
     sid := sid r;
     msg := msg e;
     filename := filename e;
     created_at := created_at r;
     updated_at := Some now;
     deleted_at := deleted_at r |}.

(** What the statement did.  [saveToDB] discards it ([_, err := db.Exec])
    and returns the driver's error, [nil] whenever the statement runs. *)
Inductive Outcome : Type := Created | Unchanged | Updated.

Fixpoint upsert (now : timestamp) (e : Row) (t : table) : table * Outcome :=
  match t with
  | [] => ([e], Created)
  | r :: t' =>
      if conflicts e r then
        if holds (update_where r e)
        then (update_set now r e :: t', Updated)
        else (r :: t', Unchanged)
      else
        let (t'', o) := upsert now e t' in (r :: t'', o)
  end.

Definition saveToDB (now : timestamp) (db : table) (sig : Signature)
  : table * Outcome :=
  upsert now (excluded now sig) db.

(** The row stored under identity [k]. *)
Definition lookup (k : string) (t : table) : option Row :=
  find (fun r => holds (sql_eq (sid r) (Some k))) t.

(** The tracked attributes: every column but [sid] and the timestamps. *)
Definition tracked (r : Row) : list (option string) :=
  [type_ r; proto r; src_ip r; src_port r; dst_ip r; dst_port r; msg r;
   filename r].

Definition tracked_of (sig : Signature) : list (option string) :=
  [Some (Type_ sig); Some (Proto sig); Some (SrcIP sig); Some (SrcPort sig);
   Some (DstIP sig); Some (DstPort sig); Some (Msg sig);
   Some (Filename sig)].

(** The incoming record differs from the stored row in a tracked column
    whose stored value is not [NULL]. *)
Definition differs (r : Row) (sig : Signature) : Prop :=
  exists i a, nth_error (tracked r) i = Some (Some a) /\
              nth_error (tracked_of sig) i <> Some (Some a).

(** The row holds the values of a record: what [saveToDB] writes, on
    insert or on update, into the tracked columns. *)
Definition holds_record (r : Row) (old : Signature) : Prop :=
  tracked r = tracked_of old.

(** [sid TEXT UNIQUE]: no two rows carry the same non-null [sid]. *)
Fixpoint unique_sid (t : table) : Prop :=
  match t with
  | [] => True
  | r :: t' =>
      (forall k, sid r = Some k -> lookup k t' = None) /\ unique_sid t'
  end.

(** The table takes [sig] as it is: a [saveToDB] of it, whenever it runs,
    writes nothing. *)
Definition settled (db : table) (sig : Signature) : Prop :=
  forall now, saveToDB now db sig = (db, Unchanged).

(** [Pass db sigs db']: [db'] is [db] after one [saveToDB] per record of
    [sigs], in order, each at some time. *)
Inductive Pass : table -> list Signature -> table -> Prop :=
| Pass_nil (db : table) : Pass db [] db
| Pass_cons (db : table) (now : timestamp) (sig : Signature)
    (sigs : list Signature) (db' : table) :
    Pass (fst (saveToDB now db sig)) sigs db' ->
    Pass db (sig :: sigs) db'.

End Store.

(** ** The unpacked archive

    [processArchive] opens the downloaded file and walks the tar headers
    until [io.EOF].  The model starts from the members the reader returns:
    type flag, name and content. *)

Module Tar.

Record member : Type := mkMember {
  Typeflag : ascii;
  Name : string;
  Content : string
}.

(** [tar.TypeReg], the byte ['0']. *)
Definition TypeReg : ascii := "0"%char.

(** [tar.TypeDir], the byte ['5']. *)
Definition TypeDir : ascii := "5"%char.

End Tar.

(** ** http.go: the message-bearing grammar *)

Module Http.
Import Strs Regexp Store.

(** [(\[.*?\]|\S+)] as group [i]. *)
Definition address (i : nat) : regex :=
  Grp i (Alt (seq [lits_i "["; lazy_star any_s; lits_i "]"]) (plus nonspace)).

(** [(?is)alert (\w+) (\[.*?\]|\S+) any -> (\[.*?\]|\S+) any .*?msg:"(.*?)";.*?sid:(\d+);] *)
Definition re : regex :=
  seq [ lits_i "alert "; Grp 1 (plus word_i); lits_i " "; address 2;
        lits_i " any -> "; address 3; lits_i " any "; lazy_star any_s;
        lits_i "msg:"; lits_i dq; Grp 4 (lazy_star any_s); lits_i dq;
        lits_i ";"; lazy_star any_s; lits_i "sid:"; Grp 5 (plus digit);
        lits_i ";" ].

Definition groups : nat := 5.

(** Lines 231-236: the first [ip [...]] span is cut out of the message. *)
Definition strip_ip_list (msg : string) : option string :=
  if Contains msg "ip [" then
    let start := Index msg "ip [" in
    match slice_from msg start with
    | None => None
    | Some tail =>
        let end_ := (Index tail "]" + start + 1)%Z in
        match slice_to msg start, slice_from msg end_ with
        | Some before, Some after => Some (before ++ after)%string
        | _, _ => None
        end
    end
  else Some msg.

(** The body of the loop up to [saveToDB].  Outer [None]: a slice
    expression panicked.  Inner [None]: the match was skipped. *)
Definition signature_of (m : caps) (file : string)
  : option (option Signature) :=
  if (List.length m <? 6)%nat then Some None
  else
    match strip_ip_list (nth 4 m EmptyString) with
    | None => None
    | Some msg =>
        Some (Some {| Type_ := nth 1 m EmptyString;
                      Proto := nth 2 m EmptyString;
                      SrcIP := nth 3 m EmptyString;
                      SrcPort := EmptyString;
                      DstIP := nth 4 m EmptyString;
                      DstPort := EmptyString;
                      Msg := msg;
                      SID := nth 5 m EmptyString;
                      Filename := file |})
    end.

(** The loop over the matches.  The statement for match number [i] runs
    at time [clock i].  The result is the table after the pass together with
    the records handed to [saveToDB], in order; an error of [saveToDB] is
    logged and the loop goes on. *)
Fixpoint save_matches (clock : nat -> timestamp) (i : nat) (file : string)
    (ms : list caps) (db : table) : option (table * list Signature) :=
  match ms with
  | [] => Some (db, [])
  | m :: ms' =>
      match signature_of m file with
      | None => None
      | Some None => save_matches clock (S i) file ms' db
      | Some (Some sig) =>
          match save_matches clock (S i) file ms'
                  (fst (saveToDB (clock i) db sig)) with
          | None => None
          | Some (db', sigs) => Some (db', sig :: sigs)
          end
      end
  end.

(** [parseFile], from the content read off the archive member on. *)
Definition parseFile (clock : nat -> timestamp) (db : table)
    (content file : string) : option (table * list Signature) :=
  let content := ReplaceAll content nl " " in
  let matches := FindAllStringSubmatch re groups content in
  save_matches clock 0 file matches db.

(** [processArchive]: every regular member goes through [parseFile], the
    others are passed over.  Member number [j] is parsed with the clock
    [clock j]; the records of the members are collected in order. *)
Fixpoint processArchive (clock : nat -> nat -> timestamp) (j : nat)
    (db : table) (members : list Tar.member)
  : option (table * list Signature) :=
  match members with
  | [] => Some (db, [])
  | h :: rest =>
      if Ascii.eqb (Tar.Typeflag h) Tar.TypeReg then
        match parseFile (clock j) db (Tar.Content h) (Tar.Name h) with
        | None => None
        | Some (db1, sigs) =>
            match processArchive clock (S j) db1 rest with
            | None => None
            | Some (db2, sigs') => Some (db2, sigs ++ sigs')
            end
        end
      else processArchive clock (S j) db rest
  end.

End Http.

(** ** ftp.go: the port-bearing grammar *)

Module Ftp.
Import Strs Regexp Store.

(** [(?i)alert (\w+) (\S+) (\S+) -> (\S+) (\S+).*?sid:(\d+);] *)
Definition re : regex :=
  seq [ lits_i "alert "; Grp 1 (plus word_i); lits_i " ";
        Grp 2 (plus nonspace); lits_i " "; Grp 3 (plus nonspace);
        lits_i " -> "; Grp 4 (plus nonspace); lits_i " ";
        Grp 5 (plus nonspace); lazy_star any; lits_i "sid:";
        Grp 6 (plus digit); lits_i ";" ].

Definition groups : nat := 6.

(** The body of the loop up to [saveToDB]; [None]: the match was skipped. *)
Definition signature_of (m : caps) (file : string) : option Signature :=
  if (List.length m <? 7)%nat then None
  else
    Some {| Type_ := nth 1 m EmptyString;
            Proto := nth 2 m EmptyString;
            SrcIP := nth 3 m EmptyString;
            SrcPort := nth 4 m EmptyString;
            DstIP := nth 5 m EmptyString;
            DstPort := nth 6 m EmptyString;
            SID := nth 6 m EmptyString;
            Msg := EmptyString;
            Filename := file |}.

Fixpoint save_matches (clock : nat -> timestamp) (i : nat) (file : string)
    (ms : list caps) (db : table) : table * list Signature :=
  match ms with
  | [] => (db, [])
  | m :: ms' =>
      match signature_of m file with
      | None => save_matches clock (S i) file ms' db
      | Some sig =>
          let (db', sigs) :=
            save_matches clock (S i) file ms'
              (fst (saveToDB (clock i) db sig)) in
          (db', sig :: sigs)
      end
  end.

Definition parseFile (clock : nat -> timestamp) (db : table)
    (content file : string) : table * list Signature :=
  let content := ReplaceAll content nl " " in
  let matches := FindAllStringSubmatch re groups content in
  save_matches clock 0 file matches db.

(** [processArchive], as in [http.go]. *)
Fixpoint processArchive (clock : nat -> nat -> timestamp) (j : nat)
    (db : table) (members : list Tar.member) : table * list Signature :=
  match members with
  | [] => (db, [])
  | h :: rest =>
      if Ascii.eqb (Tar.Typeflag h) Tar.TypeReg then
        let (db1, sigs) :=
          parseFile (clock j) db (Tar.Content h) (Tar.Name h) in
        let (db2, sigs') := processArchive clock (S j) db1 rest in
        (db2, sigs ++ sigs')
      else processArchive clock (S j) db rest
  end.

(** The address [downloadFileFromFTP] dials (lines 141-146): the scheme is
    trimmed, the host is what precedes the first slash, the port is 21.
    Indexing an empty slice panics; the panic is [None]. *)
Definition dial_address (ftpURL : string) : option string :=
  let ftpHost := TrimPrefix ftpURL "ftp://" in
  match Split ftpHost "/" with
  | [] => None
  | ftpHost :: _ => Some (ftpHost ++ ":21")%string
  end.

End Ftp.

(** ** export.go *)

Module Exporter.
Import Strs Store.

Record Signature : Type := mkSignature {
  Type_ : string;
  Proto : string;
  SrcIP : string;
  DstIP : string;
  SID : string;
  Msg : string;
  Filename : string
}.

Definition ExportFormat := string.
Definition Suricata : ExportFormat := "suricata".
Definition Dionis : ExportFormat := "dionis".

(** The errors [exportSignatures] returns from inside the loop. *)
Inductive Error : Type :=
| ScanError
| UnsupportedFormat (format : ExportFormat).

(** The effects on the outside world, in order. *)
Inductive Event : Type :=
| Query
| WriteFile (path data : string).

Record World : Type := mkWorld {
  files : string -> option string;
  events : list Event
}.

Definition write (path data : string) (fs : string -> option string)
  : string -> option string :=
  fun p => if String.eqb p path then Some data else fs p.

(** [WHERE deleted_at IS NULL]. *)
Definition live (r : Row) : bool :=
  match deleted_at r with
  | None => true
  | Some _ => false
  end.

(** [rows.Scan] and the handling of the two nullable fields.  Scanning
    [NULL] into a plain [string] is an error. *)
Definition scan (r : Row) : option Signature :=
  match type_ r, proto r, src_ip r, dst_ip r, sid r with
  | Some t, Some p, Some s, Some d, Some i =>
      Some {| Type_ := t; Proto := p; SrcIP := s; DstIP := d; SID := i;
              Msg := match msg r with Some m => m | None => "N/A" end;
              Filename :=
                match filename r with Some f => f | None => "N/A" end |}
  | _, _, _, _, _ => None
  end.

(** The [switch]: one line per record, or no line for an unknown format. *)
Definition line (format : ExportFormat) (sig : Signature) : option string :=
  if String.eqb format Suricata then
    Some (nl ++ "alert " ++ Type_ sig ++ " " ++ Proto sig ++ " " ++ SrcIP sig
          ++ " -> " ++ DstIP sig ++ " any (msg:" ++ dq ++ Msg sig ++ dq
          ++ "; sid:" ++ SID sig ++ ";);")%string
  else if String.eqb format Dionis then
    Some (nl ++ "type:" ++ Type_ sig ++ ";proto:" ++ Proto sig ++ ";src_ip:"
          ++ SrcIP sig ++ ";dst_ip:" ++ DstIP sig ++ ";sid:" ++ SID sig
          ++ ";msg:" ++ Msg sig ++ ";filename:" ++ Filename sig ++ ";")%string
  else None.

(** The loop over the result set; [outputData] is the buffer. *)
Fixpoint render (format : ExportFormat) (rows : list Row)
    (outputData : list string) : Error + list string :=
  match rows with
  | [] => inr outputData
  | r :: rows' =>
      match scan r with
      | None => inl ScanError
      | Some sig =>
          match line format sig with
          | None => inl (UnsupportedFormat format)
          | Some l => render format rows' (outputData ++ [l])
          end
      end
  end.

(** [exportSignatures].  The query returns the live rows, here in table
    order (SQL fixes none).  Failures of the query, of the cursor and of
    [os.WriteFile] themselves belong to the database and the file system and
    are not modelled: the errors left are the two raised inside the loop. *)
Definition exportSignatures (db : table) (format : ExportFormat)
    (outputFile : string) (w : World) : option Error * World :=
  let w1 := {| files := files w; events := events w ++ [Query] |} in
  match render format (filter live db) [] with
  | inl e => (Some e, w1)
  | inr outputData =>
      let data := Join outputData in
      (None, {| files := write outputFile data (files w1);
                events := events w1 ++ [WriteFile outputFile data] |})
  end.

(** The two exports of [main] (lines 67-77), one after the other on the
    same connection; an error is logged and [main] goes on.  The log file
    is not part of [World]. *)
Definition main (db : table) (w : World)
  : option Error * option Error * World :=
  let (e1, w1) := exportSignatures db Suricata "export_suricata.txt" w in
  let (e2, w2) := exportSignatures db Dionis "export_dionis.txt" w1 in
  (e1, e2, w2).

End Exporter.

(** ** Sample data *)

Module Samples.
Import Strs Store.

Definition sig_a : Signature :=
  mkSignature "tcp" "10.0.0.1" "10.0.0.2" "" "test rule" "" "1000001"
              "test rule" "a.rules".

Definition sig_b : Signature :=
  mkSignature "tcp" "any" "any" "" "" "" "1000001" "" "b.rules".

Definition sig_noid : Signature :=
  mkSignature "tcp" "any" "any" "" "" "" "" "no identity" "c.rules".

(** Stored like [sig_b], but with [msg] left [NULL]. *)
Definition row_null_msg : Row :=
  mkRow (Some "tcp") (Some "any") (Some "any") (Some "") (Some "") (Some "")
        (Some "1000001") None (Some "b.rules") (Some 1%Z) (Some 1%Z) None.

(** Stored by an ingestion of [sig_b]: the message is the empty string. *)
Definition row_blank_msg : Row := excluded 10%Z sig_b.

(** A row a scan fails on: [type] is [NULL]. *)
Definition row_null_type : Row :=
  mkRow None (Some "any") (Some "any") (Some "") (Some "") (Some "")
        (Some "7") (Some "m") (Some "b.rules") (Some 1%Z) (Some 1%Z) None.

(** The rule of the specification's example. *)
Definition rule_text : string :=
  ("alert tcp 10.0.0.1 any -> 10.0.0.2 any (msg:" ++ dq ++ "test rule" ++ dq
   ++ "; sid:1000001;)")%string.

(** A rule over an address list whose message repeats a list. *)
Definition rule_text_list : string :=
  ("alert ip [1.1.1.1,2.2.2.2] any -> $HOME_NET any (msg:" ++ dq
   ++ "DROP ip [1.1.1.1] listed ip [2.2.2.2]" ++ dq
   ++ "; sid:2400000;)")%string.

(** A rule whose message has a bracketed list before the marked one. *)
Definition rule_text_brackets : string :=
  ("alert tcp $EXTERNAL_NET any -> $HOME_NET any (msg:" ++ dq
   ++ "blocked [1.1.1.1] from ip [2.2.2.2] ok" ++ dq
   ++ "; sid:2400001;)")%string.

(** A rule with ports. *)
Definition rule_text_ports : string :=
  ("alert tcp $EXTERNAL_NET any -> $HOME_NET 80 (msg:" ++ dq ++ "web" ++ dq
   ++ "; sid:1000001;)")%string.

Definition no_files : string -> option string := fun _ => None.

Definition fresh_world : Exporter.World := Exporter.mkWorld no_files [].

(** A world in which an earlier export left an artifact. *)
Definition old_world : Exporter.World :=
  Exporter.mkWorld (Exporter.write "export_suricata.txt" "old" no_files) [].

(** A row marked as deleted. *)
Definition row_deleted : Row :=
  mkRow (Some "udp") (Some "any") (Some "any") (Some "") (Some "") (Some "")
        (Some "9") (Some "old rule") (Some "c.rules") (Some 1%Z) (Some 1%Z)
        (Some 5%Z).

(** An unpacked suricata archive: a directory and two rule files. *)
Definition archive_http : list Tar.member :=
  [ Tar.mkMember Tar.TypeDir "rules/" EmptyString;
    Tar.mkMember Tar.TypeReg "rules/a.rules" rule_text;
    Tar.mkMember Tar.TypeReg "rules/b.rules" rule_text_list ].

(** An unpacked snort archive: one rule file. *)
Definition archive_ftp : list Tar.member :=
  [ Tar.mkMember Tar.TypeReg "snort/web.rules" rule_text_ports ].

(** An archive in which two files carry the same rule. *)
Definition archive_twice : list Tar.member :=
  [ Tar.mkMember Tar.TypeReg "old/a.rules" rule_text;
    Tar.mkMember Tar.TypeReg "new/a.rules" rule_text ].

(** Two runs: the statement for match [i] of member [j] at these times. *)
Definition first_run : nat -> nat -> Store.timestamp :=
  fun j i => Z.of_nat (100 + 10 * j + i).

Definition second_run : nat -> nat -> Store.timestamp :=
  fun j i => Z.of_nat (200 + 10 * j + i).

(** The table and the records after the first run on an empty table. *)
Definition http_after : Store.table * list Store.Signature :=
  Eval vm_compute in
    match Http.processArchive first_run 0 [] archive_http with
    | Some x => x
    | None => ([], [])
    end.

Definition twice_after : Store.table * list Store.Signature :=
  Eval vm_compute in
    match Http.processArchive first_run 0 [] archive_twice with
    | Some x => x
    | None => ([], [])
    end.

(** The same run on a table that holds a row already. *)
Definition http_after_row : Store.table * list Store.Signature :=
  Eval vm_compute in
    match Http.processArchive first_run 0 [row_deleted] archive_http with
    | Some x => x
    | None => ([], [])
    end.

Definition ftp_after : Store.table * list Store.Signature :=
  Eval vm_compute in Ftp.processArchive first_run 0 [] archive_ftp.

End Samples.

(** * Properties *)

(** ** The upsert statement *)

Module StoreFacts.
Import Store Samples.

Lemma sql_eq_same (k : string) : holds (sql_eq (Some k) (Some k)) = true.
Proof. simpl. now rewrite String.eqb_refl. Qed.

Lemma sql_ne_same (a : string) : sql_ne (Some a) (Some a) = Some false.
Proof. simpl. now rewrite String.eqb_refl. Qed.

Lemma sql_ne_diff (a b : string) : a <> b -> sql_ne (Some a) (Some b) = Some true.
Proof.
  intros H. simpl. destruct (String.eqb a b) eqn:E; [|reflexivity].
  apply String.eqb_eq in E. contradiction.
Qed.

Lemma sql_or_true_l (b : option bool) : sql_or (Some true) b = Some true.
Proof. reflexivity. Qed.

Lemma sql_or_true_r (a : option bool) : sql_or a (Some true) = Some true.
Proof. destruct a as [[|]|]; reflexivity. Qed.

(** A row conflicts with the proposed one exactly when [lookup] finds it. *)
Lemma conflicts_excluded (now : timestamp) (sig : Signature) (r : Row) :
  conflicts (excluded now sig) r = holds (sql_eq (sid r) (Some (SID sig))).
Proof. reflexivity. Qed.

(** No row under the identity: the proposed row is appended. *)
Lemma upsert_absent (now : timestamp) (e : Row) (k : string) (t : table) :
  sid e = Some k -> lookup k t = None -> upsert now e t = (t ++ [e], Created).
Proof.
  intros He. induction t as [|r t IH]; simpl; intros Hl; [reflexivity|].
  unfold conflicts. rewrite He.
  destruct (holds (sql_eq (sid r) (Some k))); [discriminate|].
  now rewrite (IH Hl).
Qed.

(** A row under the identity: it alone is compared and, if the [WHERE]
    holds, replaced in place. *)
Lemma upsert_present (now : timestamp) (e : Row) (k : string) (t : table)
    (r : Row) :
  sid e = Some k -> lookup k t = Some r ->
  exists pre post,
    t = pre ++ r :: post /\ lookup k pre = None /\
    upsert now e t =
      if holds (update_where r e)
      then (pre ++ update_set now r e :: post, Updated)
      else (t, Unchanged).
Proof.
  intros He. induction t as [|x t IH]; simpl; intros Hl; [discriminate|].
  unfold conflicts. rewrite He.
  destruct (holds (sql_eq (sid x) (Some k))) eqn:E.
  - injection Hl as ->. exists [], t.
    split; [reflexivity|]. split; [reflexivity|].
    now destruct (holds (update_where r e)).
  - destruct (IH Hl) as (pre & post & -> & Hpre & Hup).
    exists (x :: pre), post. simpl. rewrite E.
    split; [reflexivity|]. split; [exact Hpre|].
    rewrite Hup. now destruct (holds (update_where r e)).
Qed.

Lemma lookup_app_absent (k : string) (pre : table) (r : Row) (post : table) :
  lookup k pre = None -> holds (sql_eq (sid r) (Some k)) = true ->
  lookup k (pre ++ r :: post) = Some r.
Proof.
  induction pre as [|x pre IH]; simpl; intros Hp Hr.
  - now rewrite Hr.
  - destruct (holds (sql_eq (sid x) (Some k))); [discriminate|]. now apply IH.
Qed.

Lemma lookup_found (k : string) (t : table) (r : Row) :
  lookup k t = Some r -> sid r = Some k.
Proof.
  intros H. apply find_some in H as [_ H].
  destruct (sid r) as [x|]; simpl in H; [|discriminate].
  destruct (String.eqb x k) eqn:E; [|discriminate].
  apply String.eqb_eq in E. now subst.
Qed.

Lemma lookup_upsert_other (now : timestamp) (e : Row) (k k' : string)
    (t : table) :
  sid e = Some k' -> k <> k' -> lookup k t = None ->
  lookup k (fst (upsert now e t)) = None.
Proof.
  intros He Hk. induction t as [|r t IH]; simpl.
  - intros _. rewrite He. simpl.
    destruct (String.eqb k' k) eqn:E; [|reflexivity].
    apply String.eqb_eq in E. now subst.
  - destruct (holds (sql_eq (sid r) (Some k))) eqn:E; [discriminate|].
    intros Hl. destruct (conflicts e r).
    + destruct (holds (update_where r e)); simpl; now rewrite E.
    + specialize (IH Hl). destruct (upsert now e t) as [t' o].
      simpl in *. now rewrite E.
Qed.

(** [saveToDB] keeps [sid] unique. *)
Lemma saveToDB_unique_sid (now : timestamp) (db : table) (sig : Signature) :
  unique_sid db -> unique_sid (fst (saveToDB now db sig)).
Proof.
  unfold saveToDB. induction db as [|r t IH]; simpl.
  - intros _. now split.
  - intros [Hr Ht]. unfold conflicts at 1. simpl sid at 2.
    destruct (holds (sql_eq (sid r) (Some (SID sig)))) eqn:E.
    + destruct (holds (update_where r (excluded now sig))); simpl; now split.
    + specialize (IH Ht).
      pose proof (fun k => lookup_upsert_other now (excluded now sig) k
                            (SID sig) t eq_refl) as L.
      destruct (upsert now (excluded now sig) t) as [t' o]. simpl in *.
      split; [|exact IH].
      intros k Hk. apply L; [|now apply Hr].
      intros ->. rewrite Hk in E. simpl in E.
      now rewrite String.eqb_refl in E.
Qed.

(** The [WHERE] of [DO UPDATE] against an identical proposal is false. *)
Lemma update_where_same (t1 t2 : timestamp) (sig : Signature) :
  update_where (excluded t1 sig) (excluded t2 sig) = Some false.
Proof.
  unfold update_where, excluded; simpl. now rewrite !String.eqb_refl.
Qed.

Lemma differs_update_where (now : timestamp) (r : Row) (sig : Signature) :
  sid r = Some (SID sig) -> differs r sig ->
  holds (update_where r (excluded now sig)) = true.
Proof.
  intros Hs (i & a & Hr & Hn).
  unfold update_where. rewrite Hs.
  change (sid (excluded now sig)) with (Some (SID sig)).
  assert (E : sql_eq (Some (SID sig)) (Some (SID sig)) = Some true)
    by (simpl; now rewrite String.eqb_refl).
  rewrite E.
  assert (T : forall x y : string, Some (Some y) <> Some (Some x) -> x <> y)
    by (intros x y N ->; now apply N).
  do 8 (destruct i as [|i];
        [ simpl in Hr, Hn; injection Hr as Hr; rewrite Hr; simpl excluded;
          cbn [type_ proto src_ip src_port dst_ip dst_port msg filename excluded];
          rewrite (sql_ne_diff _ _ (T _ _ Hn));
          rewrite ?sql_or_true_l, ?sql_or_true_r; reflexivity | ]).
  destruct i; discriminate.
Qed.

(** C1. A record whose identity is non-empty and not in the store is
    inserted by the first [saveToDB] ([Created]); a second [saveToDB] of the
    same record, at any later time, changes nothing ([Unchanged]): the table
    is the same table, and the row still carries the [updated_at] of the
    first call. *)
Theorem saveToDB_twice (db : table) (sig : Signature) (t1 t2 : timestamp) :
  SID sig <> EmptyString ->
  lookup (SID sig) db = None ->
  exists db1 r,
    saveToDB t1 db sig = (db1, Created) /\
    saveToDB t2 db1 sig = (db1, Unchanged) /\
    lookup (SID sig) db1 = Some r /\
    updated_at r = Some t1.
Proof.
  intros _ Habs.
  exists (db ++ [excluded t1 sig]), (excluded t1 sig).
  assert (Hl : lookup (SID sig) (db ++ [excluded t1 sig])
               = Some (excluded t1 sig))
    by (apply lookup_app_absent; [exact Habs | apply sql_eq_same]).
  split; [now apply upsert_absent with (k := SID sig)|].
  split; [|split; [exact Hl | reflexivity]].
  unfold saveToDB.
  destruct (upsert_present t2 (excluded t2 sig) (SID sig) _ _ eq_refl Hl)
    as (pre & post & _ & _ & ->).
  now rewrite update_where_same.
Qed.

Lemma saveToDB_twice_witness :
  exists db1 r,
    saveToDB 10%Z [] sig_a = (db1, Created) /\
    saveToDB 20%Z db1 sig_a = (db1, Unchanged) /\
    lookup (SID sig_a) db1 = Some r /\
    updated_at r = Some 10%Z.
Proof.
  apply (saveToDB_twice [] sig_a 10%Z 20%Z); [discriminate | reflexivity].
Defined.

(** A record that differs from the stored row in a tracked column whose
    stored value is not [NULL] is written over it: every tracked column
    takes the incoming value, [updated_at] becomes the time of the call,
    and identity, [created_at] and [deleted_at] stay. *)
Lemma saveToDB_differs_overwrites (db : table) (sig : Signature)
    (r : Row) (now : timestamp) :
  lookup (SID sig) db = Some r ->
  differs r sig ->
  exists db' r',
    saveToDB now db sig = (db', Updated) /\
    lookup (SID sig) db' = Some r' /\
    tracked r' = tracked_of sig /\
    updated_at r' = Some now /\
    sid r' = sid r /\ created_at r' = created_at r /\
    deleted_at r' = deleted_at r.
Proof.
  intros Hl Hd.
  pose proof (lookup_found _ _ _ Hl) as Hs.
  destruct (upsert_present now (excluded now sig) (SID sig) db r eq_refl Hl)
    as (pre & post & -> & Hpre & Hup).
  rewrite (differs_update_where now r sig Hs Hd) in Hup.
  exists (pre ++ update_set now r (excluded now sig) :: post),
         (update_set now r (excluded now sig)).
  split; [exact Hup|].
  split; [|now repeat split].
  apply lookup_app_absent; [exact Hpre|].
  simpl. rewrite Hs. apply sql_eq_same.
Qed.

(** Every row [saveToDB] writes holds a record, and it leaves the other
    rows as they are: a table whose rows all hold records stays one. *)
Lemma saveToDB_rows_hold_records (now : timestamp) (db : table)
    (sig : Signature) :
  Forall (fun r => exists old, holds_record r old) db ->
  Forall (fun r => exists old, holds_record r old)
         (fst (saveToDB now db sig)).
Proof.
  unfold saveToDB. induction db as [|r t IH]; simpl; intros F.
  - constructor; [now exists sig | constructor].
  - apply Forall_cons_iff in F as [Hr Ht].
    destruct (conflicts (excluded now sig) r).
    + destruct (holds (update_where r (excluded now sig))); simpl.
      * constructor; [now exists sig | exact Ht].
      * now constructor.
    + specialize (IH Ht).
      destruct (upsert now (excluded now sig) t) as [t' o]. simpl in *.
      now constructor.
Qed.

(** Two records with different tracked values differ in one field. *)
Lemma tracked_of_differs (r : Row) (old sig : Signature) :
  holds_record r old -> tracked_of old <> tracked_of sig -> differs r sig.
Proof.
  unfold holds_record, differs. intros Hr Hn. rewrite Hr.
  destruct (String.string_dec (Type_ old) (Type_ sig)) as [E0|N0];
    [|exists 0, (Type_ old); split; [reflexivity|];
      intros E; injection E as E; now apply N0].
  destruct (String.string_dec (Proto old) (Proto sig)) as [E1|N1];
    [|exists 1, (Proto old); split; [reflexivity|];
      intros E; injection E as E; now apply N1].
  destruct (String.string_dec (SrcIP old) (SrcIP sig)) as [E2|N2];
    [|exists 2, (SrcIP old); split; [reflexivity|];
      intros E; injection E as E; now apply N2].
  destruct (String.string_dec (SrcPort old) (SrcPort sig)) as [E3|N3];
    [|exists 3, (SrcPort old); split; [reflexivity|];
      intros E; injection E as E; now apply N3].
  destruct (String.string_dec (DstIP old) (DstIP sig)) as [E4|N4];
    [|exists 4, (DstIP old); split; [reflexivity|];
      intros E; injection E as E; now apply N4].
  destruct (String.string_dec (DstPort old) (DstPort sig)) as [E5|N5];
    [|exists 5, (DstPort old); split; [reflexivity|];
      intros E; injection E as E; now apply N5].
  destruct (String.string_dec (Msg old) (Msg sig)) as [E6|N6];
    [|exists 6, (Msg old); split; [reflexivity|];
      intros E; injection E as E; now apply N6].
  destruct (String.string_dec (Filename old) (Filename sig)) as [E7|N7];
    [|exists 7, (Filename old); split; [reflexivity|];
      intros E; injection E as E; now apply N7].
  exfalso. apply Hn. unfold tracked_of. congruence.
Qed.

(** C2. When the row under the identity of the incoming record holds a
    stored record, and the two records differ in at least one tracked
    attribute, [saveToDB] updates: every tracked column takes the incoming
    value (an empty one included, whatever was there), [updated_at]
    becomes the time of the call, and identity, [created_at] and
    [deleted_at] stay. *)
Theorem saveToDB_stored_record_overwritten (db : table)
    (old sig : Signature) (r : Row) (now : timestamp) :
  lookup (SID sig) db = Some r ->
  holds_record r old ->
  tracked_of old <> tracked_of sig ->
  exists db' r',
    saveToDB now db sig = (db', Updated) /\
    lookup (SID sig) db' = Some r' /\
    holds_record r' sig /\
    updated_at r' = Some now /\
    sid r' = sid r /\ created_at r' = created_at r /\
    deleted_at r' = deleted_at r.
Proof.
  intros Hl Ho Hn.
  apply (saveToDB_differs_overwrites db sig r now Hl).
  exact (tracked_of_differs r old sig Ho Hn).
Qed.

Lemma saveToDB_stored_record_overwritten_witness :
  exists db' r',
    saveToDB 20%Z [excluded 10%Z sig_a] sig_b = (db', Updated) /\
    lookup (SID sig_b) db' = Some r' /\
    holds_record r' sig_b /\
    updated_at r' = Some 20%Z /\
    sid r' = sid (excluded 10%Z sig_a) /\
    created_at r' = created_at (excluded 10%Z sig_a) /\
    deleted_at r' = deleted_at (excluded 10%Z sig_a).
Proof.
  apply (saveToDB_stored_record_overwritten [excluded 10%Z sig_a] sig_a sig_b
           (excluded 10%Z sig_a) 20%Z).
  - reflexivity.
  - reflexivity.
  - discriminate.
Defined.

(** A row with a [NULL] in a tracked column holds no record, and no
    program here writes one.  On such a row the comparison with the [NULL]
    is unknown, not true: if nothing else differs, nothing is written. *)
Example saveToDB_null_column_unchanged :
  lookup (SID sig_b) [row_null_msg] = Some row_null_msg /\
  (forall old, ~ holds_record row_null_msg old) /\
  saveToDB 20%Z [row_null_msg] sig_b = ([row_null_msg], Unchanged).
Proof.
  split; [reflexivity|]. split; [intros old H; discriminate H | reflexivity].
Qed.

(** C3, as amended. [saveToDB] has no check of the identity: a record whose
    identity is empty is upserted under the empty string like any other
    key; when no row has that key it is inserted ([Created]). *)
Theorem saveToDB_empty_identity_created (db : table) (sig : Signature)
    (now : timestamp) :
  SID sig = EmptyString ->
  lookup EmptyString db = None ->
  saveToDB now db sig = (db ++ [excluded now sig], Created) /\
  lookup EmptyString (db ++ [excluded now sig]) = Some (excluded now sig).
Proof.
  intros He Habs. split.
  - apply upsert_absent with (k := EmptyString); [simpl; now rewrite He | exact Habs].
  - apply lookup_app_absent; [exact Habs|]. simpl. now rewrite He.
Qed.

Lemma saveToDB_empty_identity_created_witness :
  saveToDB 10%Z [] sig_noid = ([] ++ [excluded 10%Z sig_noid], Created) /\
  lookup EmptyString ([] ++ [excluded 10%Z sig_noid])
    = Some (excluded 10%Z sig_noid).
Proof.
  apply (saveToDB_empty_identity_created [] sig_noid 10%Z); reflexivity.
Defined.

(** C3 fails as stated: a record with empty identity is not rejected, and
    the store gains a row. *)
Lemma saveToDB_empty_identity_stored :
  SID sig_noid = EmptyString /\
  saveToDB 10%Z [] sig_noid = ([excluded 10%Z sig_noid], Created) /\
  fst (saveToDB 10%Z [] sig_noid) <> [].
Proof.
  split; [reflexivity|]. split; [reflexivity | discriminate].
Qed.

End StoreFacts.

(** ** The export *)

Module ExporterFacts.
Import Strs Store Exporter Samples.

Lemma line_unsupported (format : ExportFormat) (sig : Signature) :
  format <> Suricata -> format <> Dionis -> line format sig = None.
Proof.
  intros Hs Hd. unfold line.
  destruct (String.eqb format Suricata) eqn:E1;
    [apply String.eqb_eq in E1; contradiction|].
  destruct (String.eqb format Dionis) eqn:E2;
    [apply String.eqb_eq in E2; contradiction|].
  reflexivity.
Qed.

(** C4, as amended. For a format other than the two supported ones the
    store is read first; when the read view has a first record and it
    scans, [exportSignatures] fails with the error that names the format,
    and the read is its only effect: no file is written. *)
Theorem export_unsupported_format (db : table) (format : ExportFormat)
    (outputFile : string) (w : World) (r : Row) (rest : list Row)
    (sig : Signature) :
  format <> Suricata -> format <> Dionis ->
  filter live db = r :: rest ->
  scan r = Some sig ->
  exportSignatures db format outputFile w =
    (Some (UnsupportedFormat format),
     {| files := files w; events := events w ++ [Query] |}).
Proof.
  intros Hs Hd Hrows Hscan. unfold exportSignatures.
  rewrite Hrows. simpl. rewrite Hscan.
  now rewrite (line_unsupported format sig Hs Hd).
Qed.

Lemma export_unsupported_format_witness :
  exportSignatures [row_blank_msg] "xml" "export_xml.txt" fresh_world =
    (Some (UnsupportedFormat "xml"),
     {| files := files fresh_world;
        events := events fresh_world ++ [Query] |}).
Proof.
  apply (export_unsupported_format [row_blank_msg] "xml" "export_xml.txt"
           fresh_world row_blank_msg []
           (mkSignature "tcp" "any" "any" "" "1000001" "" "b.rules"));
    [discriminate | discriminate | reflexivity | reflexivity].
Defined.

(** C4 fails as stated: on a store without live records an unsupported
    format is not detected, the export succeeds and writes an empty
    artifact; and on a store with a live record the store has been read
    when the error is returned. *)
Lemma unsupported_format_on_empty_store :
  "xml" <> Suricata /\ "xml" <> Dionis /\
  exportSignatures [] "xml" "export_xml.txt" fresh_world =
    (None,
     {| files := write "export_xml.txt" EmptyString no_files;
        events := [Query; WriteFile "export_xml.txt" EmptyString] |}) /\
  events (snd (exportSignatures [row_blank_msg] "xml" "export_xml.txt"
                 fresh_world)) = [Query].
Proof.
  split; [discriminate|]. split; [discriminate|]. split; reflexivity.
Qed.

(** C5, as amended. The placeholder stands for [NULL]: a record that scans
    renders, in either format, with [N/A] for a message that is [NULL] and
    with the stored text, the empty string included, otherwise; the same
    holds for the file name in the key:value format. *)
Theorem render_null_sentinel (r : Row) (sig : Signature) :
  scan r = Some sig ->
  Msg sig = match msg r with Some m => m | None => "N/A" end /\
  Filename sig = match filename r with Some f => f | None => "N/A" end /\
  render Suricata [r] [] =
    inr [(nl ++ "alert " ++ Type_ sig ++ " " ++ Proto sig ++ " " ++ SrcIP sig
          ++ " -> " ++ DstIP sig ++ " any (msg:" ++ dq ++ Msg sig ++ dq
          ++ "; sid:" ++ SID sig ++ ";);")%string] /\
  render Dionis [r] [] =
    inr [(nl ++ "type:" ++ Type_ sig ++ ";proto:" ++ Proto sig ++ ";src_ip:"
          ++ SrcIP sig ++ ";dst_ip:" ++ DstIP sig ++ ";sid:" ++ SID sig
          ++ ";msg:" ++ Msg sig ++ ";filename:" ++ Filename sig
          ++ ";")%string].
Proof.
  intros Hscan. simpl render. rewrite Hscan.
  unfold scan in Hscan.
  destruct (type_ r), (proto r), (src_ip r), (dst_ip r), (sid r);
    try discriminate.
  injection Hscan as <-. repeat split.
Qed.

Lemma render_null_sentinel_witness :
  render Suricata [row_null_msg] [] =
    inr [(nl ++ "alert tcp any any ->  any (msg:" ++ dq ++ "N/A" ++ dq
          ++ "; sid:1000001;);")%string].
Proof.
  apply (render_null_sentinel row_null_msg
           (mkSignature "tcp" "any" "any" "" "1000001" "N/A" "b.rules")).
  reflexivity.
Defined.

(** C5 fails as stated: a live record whose message is the empty string,
    as the port-bearing grammar stores it, renders with an empty message
    and without the placeholder. *)
Lemma render_blank_message_stays_blank :
  live row_blank_msg = true /\
  msg row_blank_msg = Some EmptyString /\
  render Suricata [row_blank_msg] [] =
    inr [(nl ++ "alert tcp any any ->  any (msg:" ++ dq ++ dq
          ++ "; sid:1000001;);")%string] /\
  render Dionis [row_blank_msg] [] =
    inr [(nl ++ "type:tcp;proto:any;src_ip:any;dst_ip:;sid:1000001;"
          ++ "msg:;filename:b.rules;")%string].
Proof. repeat split. Qed.

(** C6. An export that fails leaves every file as it was: its only effect
    is the read of the store.  An export that succeeds has rendered every
    record into the buffer and written the joined buffer in one write. *)
Theorem export_single_write (db : table) (format : ExportFormat)
    (outputFile : string) (w : World) :
  match exportSignatures db format outputFile w with
  | (Some _, w') =>
      files w' = files w /\ events w' = events w ++ [Query]
  | (None, w') =>
      exists outputData,
        render format (filter live db) [] = inr outputData /\
        files w' = write outputFile (Join outputData) (files w) /\
        events w' =
          events w ++ [Query; WriteFile outputFile (Join outputData)]
  end.
Proof.
  unfold exportSignatures.
  destruct (render format (filter live db) []) as [e|out]; simpl.
  - now split.
  - exists out. repeat split. now rewrite <- app_assoc.
Qed.

(** A failure after the first line has been produced: the artifact of an
    earlier export is still in place. *)
Example export_failure_keeps_artifact :
  let res := exportSignatures [row_blank_msg; row_null_type] Suricata
               "export_suricata.txt" old_world in
  fst res = Some ScanError /\
  files (snd res) "export_suricata.txt" = Some "old".
Proof. split; reflexivity. Qed.

End ExporterFacts.

(** ** Strings *)

Module StrsFacts.
Import Strs.

Lemma length_append (a b : string) :
  length (a ++ b) = length a + length b.
Proof. induction a as [|x a IH]; simpl; [reflexivity | now rewrite IH]. Qed.

Lemma drop_append (a b : string) : drop (length a) (a ++ b) = b.
Proof. induction a as [|x a IH]; simpl; [now destruct b | exact IH]. Qed.

Lemma take_append (a b : string) : take (length a) (a ++ b) = a.
Proof. induction a as [|x a IH]; simpl; [reflexivity | now rewrite IH]. Qed.

Lemma length_drop (n : nat) (s : string) :
  n <= length s -> length (drop n s) = length s - n.
Proof.
  revert s. induction n as [|n IH]; intros [|x s]; simpl; intros H;
    try reflexivity; try lia.
  now apply IH; lia.
Qed.

Lemma HasPrefix_length (s p : string) :
  HasPrefix s p = true -> length p <= length s.
Proof.
  revert s. induction p as [|a p IH]; intros [|b s]; simpl; intros H;
    try lia; try discriminate.
  apply andb_prop in H as [_ H]. apply IH in H. lia.
Qed.

(** [Index] is [-1] or an offset at which the whole of [sub] fits. *)
Lemma Index_range (s sub : string) :
  (Index s sub = -1 \/
   0 <= Index s sub /\ Index s sub + Z.of_nat (length sub)
                       <= Z.of_nat (length s))%Z.
Proof.
  induction s as [|x s IH].
  - cbn [Index]. destruct (HasPrefix EmptyString sub) eqn:E; [|now left].
    right. apply HasPrefix_length in E. simpl in E. lia.
  - cbn [Index]. destruct (HasPrefix (String x s) sub) eqn:E.
    + right. apply HasPrefix_length in E. lia.
    + destruct (Index s sub <? 0)%Z eqn:L; [now left|].
      apply Z.ltb_ge in L. right.
      destruct IH as [IH|IH]; [lia|]. simpl length. lia.
Qed.

(** The first occurrence of a byte that [a] does not contain. *)
Lemma Index_byte_append (c : ascii) (a b : string) :
  Index a (String c EmptyString) = (-1)%Z ->
  Index (a ++ String c b) (String c EmptyString) = Z.of_nat (length a).
Proof.
  assert (P : forall x t, HasPrefix (String x t) (String c EmptyString)
                          = Ascii.eqb c x)
    by (intros x t; destruct t; cbn [HasPrefix]; apply andb_true_r).
  induction a as [|x a IH]; intros H.
  - cbn [append Index length]. now rewrite P, Ascii.eqb_refl.
  - cbn [Index] in H. cbn [append Index].
    rewrite P in *. destruct (Ascii.eqb c x); [discriminate|].
    destruct (Index_range a (String c EmptyString)) as [E|[E _]].
    + rewrite (IH E).
      destruct (Z.of_nat (length a) <? 0)%Z eqn:L;
        [apply Z.ltb_lt in L; lia|]. cbn [length]. lia.
    + destruct (Index a (String c EmptyString) <? 0)%Z eqn:L;
        [apply Z.ltb_lt in L; lia | lia].
Qed.

Lemma slice_from_ok (s : string) (i : Z) :
  (0 <= i <= Z.of_nat (length s))%Z ->
  slice_from s i = Some (drop (Z.to_nat i) s).
Proof.
  intros [H1 H2]. unfold slice_from.
  apply Z.leb_le in H1, H2. now rewrite H1, H2.
Qed.

Lemma slice_to_ok (s : string) (j : Z) :
  (0 <= j <= Z.of_nat (length s))%Z ->
  slice_to s j = Some (take (Z.to_nat j) s).
Proof.
  intros [H1 H2]. unfold slice_to.
  apply Z.leb_le in H1, H2. now rewrite H1, H2.
Qed.

End StrsFacts.

(** ** The matcher *)

Module RegexpFacts.
Import Strs Regexp StrsFacts.

Lemma strip_prefix_shorter (p s s' : string) :
  p <> EmptyString -> strip_prefix p s = Some s' -> length s' < length s.
Proof.
  unfold strip_prefix. intros Hp. destruct (HasPrefix s p) eqn:E; [|discriminate].
  intros H. injection H as <-. apply HasPrefix_length in E.
  rewrite length_drop by exact E.
  destruct p; [contradiction | simpl in *; lia].
Qed.

(** An atom consumes at least one byte. *)
Lemma atom_step_shorter (a : atom) (s s' : string) :
  atom_step a s = Some s' -> length s' < length s.
Proof.
  unfold atom_step. destruct s as [|b s]; [discriminate|].
  destruct (byte_ok a b).
  - intros H. injection H as <-. simpl. lia.
  - induction (folded a) as [|p ps IH]; simpl; [discriminate|].
    destruct p as [|x p]; [exact IH|].
    destruct (strip_prefix (String x p) (String b s)) eqn:E; [|exact IH].
    intros H. injection H as <-.
    now apply strip_prefix_shorter in E.
Qed.

(** The bound on the iterations of [rep] is never the reason to stop: any
    bound that covers the input gives the same result. *)
Lemma rep_fuel (R : Type) (f1 f2 : nat) (greedy : bool) (least : nat)
    (a : atom) (s : string) (c : caps) (k : string -> caps -> option R) :
  length s <= f1 -> length s <= f2 ->
  rep R f1 greedy least a s c k = rep R f2 greedy least a s c k.
Proof.
  revert f2 least s. induction f1 as [|f1 IH]; intros f2 least s H1 H2.
  - destruct s; [|simpl in H1; lia].
    destruct f2; simpl; [reflexivity|]. now destruct greedy.
  - destruct f2 as [|f2].
    + destruct s; [|simpl in H2; lia]. simpl. now destruct greedy.
    + cbn [rep]. destruct (atom_step a s) as [s'|] eqn:E; [|reflexivity].
      apply atom_step_shorter in E.
      now rewrite (IH f2 (pred least) s') by lia.
Qed.

(** Likewise for the search: the bound of [FindAllStringSubmatch] covers
    every input. *)
Lemma find_all_fuel (f1 f2 : nat) (r : regex) (groups : nat) (s : string) :
  length s < f1 -> length s < f2 ->
  find_all f1 r groups s = find_all f2 r groups s.
Proof.
  revert f2 s. induction f1 as [|f1 IH]; intros f2 s H1 H2; [lia|].
  destruct f2 as [|f2]; [lia|]. cbn [find_all].
  destruct (match_here r groups s) as [[rest c]|].
  - f_equal. destruct (Nat.ltb (length rest) (length s)) eqn:L.
    + apply Nat.ltb_lt in L. apply IH; lia.
    + destruct s; [reflexivity|]. simpl in *. apply IH; lia.
  - destruct s; [reflexivity|]. simpl in *. apply IH; lia.
Qed.

Lemma length_set_cap (i : nat) (v : string) (c : caps) :
  List.length (set_cap i v c) = List.length c.
Proof.
  revert i. induction c as [|x c IH]; intros [|i]; simpl; try reflexivity.
  now rewrite IH.
Qed.

Lemma rep_caps (R : Type) (n fuel : nat) (greedy : bool) (least : nat)
    (a : atom) (s : string) (c : caps) (k : string -> caps -> option R)
    (x : R) :
  List.length c = n -> rep R fuel greedy least a s c k = Some x ->
  exists s' c', List.length c' = n /\ k s' c' = Some x.
Proof.
  intros Hc. revert least s.
  induction fuel as [|f IH]; intros least s; cbn [rep].
  - destruct greedy, least; try discriminate.
    + intros H. now exists s, c.
    + destruct (k s c) eqn:E; [|discriminate].
      intros H. injection H as ->. now exists s, c.
  - destruct greedy.
    + destruct (atom_step a s) as [s'|].
      * destruct (rep R f true (pred least) a s' c k) eqn:E.
        -- intros H. injection H as ->. now apply IH in E.
        -- destruct least; [|discriminate]. intros H. now exists s, c.
      * destruct least; [|discriminate]. intros H. now exists s, c.
    + destruct least.
      * destruct (k s c) eqn:E.
        -- intros H. injection H as ->. now exists s, c.
        -- destruct (atom_step a s) as [s'|]; [|discriminate]. apply IH.
      * destruct (atom_step a s) as [s'|]; [|discriminate]. apply IH.
Qed.

(** The matcher hands to its continuation as many submatch slots as it
    was given. *)
Lemma run_caps (R : Type) (n : nat) (r : regex) (s : string) (c : caps)
    (k : string -> caps -> option R) (x : R) :
  List.length c = n -> run R r s c k = Some x ->
  exists s' c', List.length c' = n /\ k s' c' = Some x.
Proof.
  revert s c k. induction r as [|a|g l a|r1 IH1 r2 IH2|r1 IH1 r2 IH2|i r IH];
    intros s c k Hc; cbn [run].
  - intros H. now exists s, c.
  - destruct (atom_step a s) as [s'|]; [|discriminate].
    intros H. now exists s', c.
  - now apply rep_caps.
  - intros H. apply (IH1 _ _ _ Hc) in H as (s1 & c1 & Hc1 & H).
    now apply (IH2 _ _ _ Hc1) in H.
  - destruct (run R r1 s c k) eqn:E.
    + intros H. injection H as ->. now apply (IH1 _ _ _ Hc) in E.
    + now apply IH2.
  - intros H. apply (IH _ _ _ Hc) in H as (s1 & c1 & Hc1 & H).
    exists s1, (set_cap i (consumed s s1) c1).
    split; [now rewrite length_set_cap | exact H].
Qed.

(** [FindAllStringSubmatch] returns, for every match, the whole match and
    one entry per group. *)
Lemma FindAllStringSubmatch_length (r : regex) (groups : nat) (s : string) :
  Forall (fun m => List.length m = S groups)
         (FindAllStringSubmatch r groups s).
Proof.
  unfold FindAllStringSubmatch. generalize (S (length s)) as fuel.
  intros fuel. revert s. induction fuel as [|f IH]; intros s; cbn [find_all];
    [constructor|].
  destruct (match_here r groups s) as [[rest c]|] eqn:E.
  - constructor.
    + unfold match_here in E.
      apply (run_caps _ (S groups)) in E as (s1 & c1 & Hc1 & H);
        [|apply repeat_length].
      injection H as _ <-. destruct c1; [discriminate | exact Hc1].
    + destruct (Nat.ltb (length rest) (length s)); [apply IH|].
      destruct s; [constructor | apply IH].
  - destruct s; [constructor | apply IH].
Qed.

End RegexpFacts.

(** ** The message-bearing grammar *)

Module HttpFacts.
Import Strs Regexp Store Http StrsFacts Samples.

Lemma append_assoc (a b c : string) : ((a ++ b) ++ c = a ++ (b ++ c))%string.
Proof. induction a as [|x a IH]; simpl; [reflexivity | now rewrite IH]. Qed.

Lemma drop_add (n m : nat) (s : string) : drop (n + m) s = drop m (drop n s).
Proof.
  revert s. induction n as [|n IH]; intros s; simpl; [reflexivity|].
  destruct s; [now destruct m | apply IH].
Qed.

Lemma Index_byte_cons (c x : ascii) (s : string) :
  Ascii.eqb c x = false ->
  Index s (String c EmptyString) = (-1)%Z ->
  Index (String x s) (String c EmptyString) = (-1)%Z.
Proof.
  intros Hx Hs. cbn [Index].
  replace (HasPrefix (String x s) (String c EmptyString)) with false
    by (destruct s; cbn [HasPrefix]; now rewrite Hx).
  now rewrite Hs.
Qed.

(** The slice expressions of [parseFile] never panic. *)
Lemma strip_ip_list_total (m : string) : exists m', strip_ip_list m = Some m'.
Proof.
  unfold strip_ip_list, Contains.
  destruct (0 <=? Index m "ip [")%Z eqn:C; [|now exists m].
  apply Z.leb_le in C.
  destruct (Index_range m "ip [") as [E|[_ E]]; [lia|]. simpl length in E.
  rewrite slice_from_ok by lia.
  set (start := Index m "ip [") in *.
  set (tail := drop (Z.to_nat start) m).
  assert (L : length tail = length m - Z.to_nat start)
    by (apply length_drop; lia).
  assert (B : (-1 <= Index tail "]"
               /\ Index tail "]" + 1 <= Z.of_nat (length tail))%Z).
  { destruct (Index_range tail "]") as [R|[R1 R2]]; [|simpl length in R2]; lia. }
  rewrite slice_to_ok by lia.
  rewrite slice_from_ok by lia.
  eexists; reflexivity.
Qed.

(** Marker and closing bracket found: the span between them goes. *)
Lemma strip_ip_list_first (pre body post : string) :
  Index (pre ++ "ip [" ++ body ++ "]" ++ post) "ip ["
    = Z.of_nat (length pre) ->
  Index body "]" = (-1)%Z ->
  strip_ip_list (pre ++ "ip [" ++ body ++ "]" ++ post)%string
    = Some (pre ++ post)%string.
Proof.
  intros Hpre Hbody. unfold strip_ip_list, Contains. rewrite Hpre.
  replace (0 <=? Z.of_nat (length pre))%Z with true
    by (symmetry; apply Z.leb_le; lia).
  set (m := (pre ++ "ip [" ++ body ++ "]" ++ post)%string).
  assert (Lm : length m = length pre + (length body + 5 + length post)).
  { unfold m. rewrite !length_append. simpl. lia. }
  assert (D1 : drop (length pre) m = (("ip [" ++ body) ++ String "]" post)%string).
  { unfold m. rewrite drop_append. now rewrite append_assoc. }
  assert (T1 : take (length pre) m = pre) by apply take_append.
  assert (D2 : drop (length pre + (4 + length body + 1)) m = post).
  { rewrite drop_add, D1.
    replace (4 + length body + 1) with (length ("ip [" ++ body ++ "]")%string)
      by (rewrite !length_append; simpl; lia).
    replace (("ip [" ++ body) ++ String "]" post)%string
      with (("ip [" ++ body ++ "]") ++ post)%string
      by (now rewrite !append_assoc).
    apply drop_append. }
  assert (I : Index (("ip [" ++ body) ++ String "]" post)%string "]"
              = Z.of_nat (4 + length body)).
  { rewrite Index_byte_append
      by (cbn [append]; repeat (apply Index_byte_cons; [reflexivity|]);
          exact Hbody).
    now rewrite length_append. }
  rewrite slice_from_ok by lia. rewrite Nat2Z.id, D1, I.
  rewrite slice_to_ok by lia. rewrite Nat2Z.id, T1.
  rewrite slice_from_ok by lia.
  replace (Z.to_nat (Z.of_nat (4 + length body) + Z.of_nat (length pre) + 1))
    with (length pre + (4 + length body + 1)) by lia.
  now rewrite D2.
Qed.

(** No marker: the message is kept. *)
Lemma strip_ip_list_none (m : string) :
  Contains m "ip [" = false -> strip_ip_list m = Some m.
Proof. intros H. unfold strip_ip_list. now rewrite H. Qed.

(** The loop of [parseFile] runs to its end and hands one record per
    match to [saveToDB]: no match is skipped. *)
Lemma save_matches_records (ms : list caps) (clock : nat -> timestamp)
    (i : nat) (file : string) (db : table) :
  Forall (fun m => List.length m = 6) ms ->
  exists db' sigs,
    save_matches clock i file ms db = Some (db', sigs) /\
    Forall2 (fun m sig => signature_of m file = Some (Some sig)) ms sigs.
Proof.
  intros Hlen. revert i db.
  induction Hlen as [|m ms Hm _ IH]; intros i db; simpl.
  - exists db, []. split; [reflexivity | constructor].
  - assert (T : exists sig, signature_of m file = Some (Some sig)).
    { unfold signature_of. rewrite Hm. simpl.
      destruct (strip_ip_list_total (nth 4 m EmptyString)) as [x ->].
      now eexists. }
    destruct T as [sig E]. rewrite E.
    destruct (IH (S i) (fst (saveToDB (clock i) db sig)))
      as (db' & sigs & -> & F).
    exists db', (sig :: sigs). split; [reflexivity|].
    now constructor.
Qed.

Lemma parseFile_records (clock : nat -> timestamp) (db : table)
    (content file : string) :
  exists db' sigs,
    parseFile clock db content file = Some (db', sigs) /\
    Forall2 (fun m sig => signature_of m file = Some (Some sig))
      (FindAllStringSubmatch re groups (ReplaceAll content nl " ")) sigs.
Proof.
  unfold parseFile. apply save_matches_records.
  apply (RegexpFacts.FindAllStringSubmatch_length re groups).
Qed.

Lemma signature_of_fields (m : caps) (file : string) (sig : Signature) :
  signature_of m file = Some (Some sig) ->
  strip_ip_list (nth 4 m EmptyString) = Some (Msg sig) /\
  Type_ sig = nth 1 m EmptyString /\
  Proto sig = nth 2 m EmptyString /\
  SrcIP sig = nth 3 m EmptyString /\
  DstIP sig = nth 4 m EmptyString /\
  SID sig = nth 5 m EmptyString /\
  SrcPort sig = EmptyString /\ DstPort sig = EmptyString /\
  Filename sig = file.
Proof.
  unfold signature_of. destruct (List.length m <? 6)%nat; [discriminate|].
  destruct (strip_ip_list (nth 4 m EmptyString)); [|discriminate].
  intros H. injection H as <-. now repeat split.
Qed.

(** The matches of the two sample rules. *)
Lemma matches_rule_text :
  FindAllStringSubmatch re groups (ReplaceAll rule_text nl " ") =
    [[ ("alert tcp 10.0.0.1 any -> 10.0.0.2 any (msg:" ++ dq ++ "test rule"
        ++ dq ++ "; sid:1000001;")%string;
       "tcp"; "10.0.0.1"; "10.0.0.2"; "test rule"; "1000001" ]].
Proof. vm_compute. reflexivity. Qed.

Lemma matches_rule_text_list :
  FindAllStringSubmatch re groups (ReplaceAll rule_text_list nl " ") =
    [[ ("alert ip [1.1.1.1,2.2.2.2] any -> $HOME_NET any (msg:" ++ dq
        ++ "DROP ip [1.1.1.1] listed ip [2.2.2.2]" ++ dq
        ++ "; sid:2400000;")%string;
       "ip"; "[1.1.1.1,2.2.2.2]"; "$HOME_NET";
       "DROP ip [1.1.1.1] listed ip [2.2.2.2]"; "2400000" ]].
Proof. vm_compute. reflexivity. Qed.

(** C7. The rule of the example yields one record: identity [1000001],
    message [test rule], both ports empty. *)
Theorem parseFile_rule_text (clock : nat -> timestamp) (db : table)
    (file : string) :
  exists db' sig,
    parseFile clock db rule_text file = Some (db', [sig]) /\
    SID sig = "1000001" /\ Msg sig = "test rule" /\
    SrcPort sig = EmptyString /\ DstPort sig = EmptyString /\
    db' = fst (saveToDB (clock 0) db sig).
Proof.
  unfold parseFile. rewrite matches_rule_text.
  eexists. eexists. split; [reflexivity|]. now repeat split.
Qed.

Lemma HasPrefix_append (p t : string) : HasPrefix (p ++ t) p = true.
Proof.
  induction p as [|x p IH]; simpl; [now destruct t|].
  now rewrite Ascii.eqb_refl.
Qed.

Lemma HasPrefix_split (s p : string) :
  HasPrefix s p = true -> s = (p ++ drop (length p) s)%string.
Proof.
  revert s. induction p as [|a p IH]; intros [|b s]; simpl; intros H;
    try reflexivity; try discriminate.
  apply andb_prop in H as [E H]. apply Ascii.eqb_eq in E. subst b.
  now rewrite <- (IH s H).
Qed.

Lemma HasPrefix_app_l (t u p : string) :
  length p <= length t -> HasPrefix (t ++ u) p = true ->
  HasPrefix t p = true.
Proof.
  revert t. induction p as [|a p IH]; intros [|b t]; simpl; intros L H;
    try reflexivity; try lia.
  apply andb_prop in H as [E H]. rewrite E. simpl. apply IH; [lia | exact H].
Qed.

Lemma HasPrefix_occurs (s p : string) : HasPrefix s p = true -> occurs p s.
Proof.
  intros H. exists EmptyString, (drop (length p) s). now apply HasPrefix_split.
Qed.

Lemma occurs_cons (sub s : string) (x : ascii) :
  occurs sub s -> occurs sub (String x s).
Proof. intros (a & b & ->). now exists (String x a), b. Qed.

(** [Index] finds every occurrence: where there is none it returns [-1]
    only, and where it returns [-1] there is none. *)
Lemma Index_not_occurs (s sub : string) :
  ~ occurs sub s -> Index s sub = (-1)%Z.
Proof.
  induction s as [|x s IH]; intros H; cbn [Index].
  - destruct (HasPrefix EmptyString sub) eqn:E; [|reflexivity].
    exfalso. now apply H, HasPrefix_occurs.
  - destruct (HasPrefix (String x s) sub) eqn:E.
    + exfalso. now apply H, HasPrefix_occurs.
    + rewrite IH; [reflexivity|]. intros O. now apply H, occurs_cons.
Qed.

(** The marker that no occurrence precedes is the one [Index] returns. *)
Lemma Index_first_marker (pre post : string) :
  ~ occurs "ip [" (pre ++ "ip ") ->
  Index (pre ++ "ip [" ++ post) "ip [" = Z.of_nat (length pre).
Proof.
  induction pre as [|x pre IH]; intros H.
  - change (EmptyString ++ "ip [" ++ post)%string with ("ip [" ++ post)%string.
    destruct post; reflexivity.
  - change (String x pre ++ "ip [" ++ post)%string
      with (String x (pre ++ "ip [" ++ post)).
    cbn [Index].
    destruct (HasPrefix (String x (pre ++ "ip [" ++ post)) "ip [") eqn:E.
    + exfalso. apply H. apply HasPrefix_occurs.
      apply HasPrefix_app_l with (u := String "[" post).
      * rewrite length_append. simpl. lia.
      * change (String x pre ++ "ip ")%string
          with (String x (pre ++ "ip ")).
        change (String x (pre ++ "ip ") ++ String "[" post)%string
          with (String x ((pre ++ "ip ") ++ String "[" post)).
        rewrite append_assoc. exact E.
    + rewrite IH by (intros O; now apply H, occurs_cons).
      destruct (Z.of_nat (length pre) <? 0)%Z eqn:L;
        [apply Z.ltb_lt in L; lia|]. cbn [length]. lia.
Qed.

Lemma take_app_drop (n : nat) (s : string) :
  (take n s ++ drop n s)%string = s.
Proof.
  revert s. induction n as [|n IH]; intros [|x s]; simpl; try reflexivity.
  now rewrite IH.
Qed.

(** Marker found, no closing bracket after it: nothing is cut. *)
Lemma strip_ip_list_unclosed (pre rest : string) :
  Index (pre ++ "ip [" ++ rest) "ip [" = Z.of_nat (length pre) ->
  Index rest "]" = (-1)%Z ->
  strip_ip_list (pre ++ "ip [" ++ rest)%string
    = Some (pre ++ "ip [" ++ rest)%string.
Proof.
  intros Hpre Hrest. unfold strip_ip_list, Contains. rewrite Hpre.
  replace (0 <=? Z.of_nat (length pre))%Z with true
    by (symmetry; apply Z.leb_le; lia).
  set (m := (pre ++ "ip [" ++ rest)%string).
  assert (Lm : length m = length pre + (4 + length rest)).
  { unfold m. rewrite !length_append. simpl. lia. }
  assert (D1 : drop (length pre) m = ("ip [" ++ rest)%string)
    by (unfold m; apply drop_append).
  assert (I : Index ("ip [" ++ rest)%string "]" = (-1)%Z)
    by (cbn [append]; repeat (apply Index_byte_cons; [reflexivity|]);
        exact Hrest).
  rewrite slice_from_ok by lia. rewrite Nat2Z.id, D1, I.
  rewrite slice_to_ok by lia. rewrite slice_from_ok by lia.
  replace (Z.to_nat (-1 + Z.of_nat (length pre) + 1))
    with (Z.to_nat (Z.of_nat (length pre))) by lia.
  now rewrite take_app_drop.
Qed.

(** C8, as amended. A pass emits one record per match.  What is cut from
    the message capture is decided by the first occurrence of the marker
    [ip []: without the marker the message is emitted as captured,
    brackets and all; with it, the span from the marker to the first
    closing bracket after it goes, and what precedes and what follows is
    kept; and if no closing bracket follows the marker, nothing is cut. *)
Theorem message_loses_marked_span (clock : nat -> timestamp) (db : table)
    (content file : string) :
  exists db' sigs,
    parseFile clock db content file = Some (db', sigs) /\
    Forall2 (fun m sig =>
      let raw := nth 4 m EmptyString in
      (~ occurs "ip [" raw -> Msg sig = raw) /\
      (forall pre rest,
         raw = (pre ++ "ip [" ++ rest)%string ->
         ~ occurs "ip [" (pre ++ "ip ") ->
         (~ occurs "]" rest -> Msg sig = raw) /\
         (forall body post,
            rest = (body ++ "]" ++ post)%string ->
            ~ occurs "]" body ->
            Msg sig = (pre ++ post)%string)))
      (FindAllStringSubmatch re groups (ReplaceAll content nl " ")) sigs.
Proof.
  destruct (parseFile_records clock db content file) as (db' & sigs & E & F).
  exists db', sigs. split; [exact E|].
  eapply Forall2_impl; [|exact F].
  intros m sig Hm.
  apply signature_of_fields in Hm as (Hmsg & _). cbv zeta. split.
  - intros Hn. apply Index_not_occurs in Hn.
    rewrite strip_ip_list_none in Hmsg by (unfold Contains; now rewrite Hn).
    now injection Hmsg.
  - intros pre rest Hraw Hfirst. rewrite Hraw in Hmsg. split.
    + intros Hn. apply Index_not_occurs in Hn.
      rewrite (strip_ip_list_unclosed pre rest
                 (Index_first_marker pre rest Hfirst) Hn) in Hmsg.
      rewrite Hraw. now injection Hmsg.
    + intros body post Hrest Hn. apply Index_not_occurs in Hn.
      rewrite Hrest in Hmsg.
      rewrite (strip_ip_list_first pre body post
                 (Index_first_marker pre _ Hfirst) Hn) in Hmsg.
      now injection Hmsg.
Qed.

(** C8 fails as stated: the first bracketed list of a message stays when
    it does not follow the marker, and a later one that does is cut; a
    message whose only bracketed list has no marker is emitted with it;
    and the marker is cut out of the middle of a word. *)
Lemma unmarked_bracket_list_kept :
  option_map snd
    (parseFile (fun _ => 0%Z) [] rule_text_brackets "a.rules")
  = Some [ mkSignature "tcp" "$EXTERNAL_NET" "$HOME_NET" EmptyString
             "blocked [1.1.1.1] from ip [2.2.2.2] ok" EmptyString "2400001"
             "blocked [1.1.1.1] from  ok" "a.rules" ] /\
  strip_ip_list "DROP [1.1.1.1] listed" = Some "DROP [1.1.1.1] listed" /\
  strip_ip_list "ship [to] port" = Some "sh port".
Proof.
  split; [|split]; vm_compute; reflexivity.
Qed.

(** A marker after the last closing bracket: nothing is cut. *)
Example marker_without_closing_bracket :
  strip_ip_list "a] ip [b" = Some "a] ip [b".
Proof. vm_compute. reflexivity. Qed.

(** The second sample: of two spans only the first is cut. *)
Example second_sample_message (clock : nat -> timestamp) (db : table)
    (file : string) :
  exists db' sig,
    parseFile clock db rule_text_list file = Some (db', [sig]) /\
    Msg sig = "DROP  listed ip [2.2.2.2]".
Proof.
  unfold parseFile. rewrite matches_rule_text_list.
  eexists. eexists. split; reflexivity.
Qed.

(** C10. Every record of a pass of the message-bearing grammar takes its
    [DstIP] from capture 4, the quoted message as matched, its [SrcIP] from
    capture 3, the address after the arrow, and its [Proto] from capture
    2, the address before the arrow.  On the second sample: [DstIP] is the
    whole message, [SrcIP] the destination [$HOME_NET], [Proto] the source
    list. *)
Theorem http_fields_shifted (clock : nat -> timestamp) (db : table)
    (content file : string) :
  (exists db' sigs,
     parseFile clock db content file = Some (db', sigs) /\
     Forall2 (fun m sig =>
       DstIP sig = nth 4 m EmptyString /\
       strip_ip_list (nth 4 m EmptyString) = Some (Msg sig) /\
       SrcIP sig = nth 3 m EmptyString /\
       Proto sig = nth 2 m EmptyString)
       (FindAllStringSubmatch re groups (ReplaceAll content nl " ")) sigs) /\
  (exists db' sig,
     parseFile clock db rule_text_list file = Some (db', [sig]) /\
     DstIP sig = "DROP ip [1.1.1.1] listed ip [2.2.2.2]" /\
     Msg sig = "DROP  listed ip [2.2.2.2]" /\
     SrcIP sig = "$HOME_NET" /\
     Proto sig = "[1.1.1.1,2.2.2.2]").
Proof.
  split.
  - destruct (parseFile_records clock db content file) as (db' & sigs & E & F).
    exists db', sigs. split; [exact E|].
    eapply Forall2_impl; [|exact F].
    intros m sig Hm.
    apply signature_of_fields in Hm as (Hmsg & _ & Hp & Hs & Hd & _).
    now repeat split.
  - unfold parseFile. rewrite matches_rule_text_list.
    eexists. eexists. split; [reflexivity|]. now repeat split.
Qed.

End HttpFacts.

(** ** The port-bearing grammar *)

Module FtpFacts.
Import Strs Regexp Store Ftp Samples.

Lemma ftp_save_matches_records (ms : list caps) (clock : nat -> timestamp)
    (i : nat) (file : string) (db : table) :
  Forall (fun m => List.length m = 7) ms ->
  Forall2 (fun m sig => signature_of m file = Some sig) ms
          (snd (save_matches clock i file ms db)).
Proof.
  intros Hlen. revert i db.
  induction Hlen as [|m ms Hm _ IH]; intros i db; simpl.
  - constructor.
  - assert (T : exists sig, signature_of m file = Some sig)
      by (unfold signature_of; rewrite Hm; now eexists).
    destruct T as [sig E]. rewrite E.
    specialize (IH (S i) (fst (saveToDB (clock i) db sig))).
    destruct (save_matches clock (S i) file ms
                (fst (saveToDB (clock i) db sig))) as [db' sigs].
    now constructor.
Qed.

Lemma matches_rule_text_ports :
  FindAllStringSubmatch re groups (ReplaceAll rule_text_ports nl " ") =
    [[ ("alert tcp $EXTERNAL_NET any -> $HOME_NET 80 (msg:" ++ dq ++ "web"
        ++ dq ++ "; sid:1000001;")%string;
       "tcp"; "$EXTERNAL_NET"; "any"; "$HOME_NET"; "80"; "1000001" ]].
Proof. vm_compute. reflexivity. Qed.

(** C9. A pass of the port-bearing grammar emits one record per match,
    and every record has [DstPort] equal to [SID], both being capture 6,
    the digits after [sid:]; capture 5, the token after the destination
    address, is its [DstIP].  On the sample rule the destination port [80]
    is the record's [DstIP] and [DstPort] is the identity. *)
Theorem ftp_dst_port_is_sid (clock : nat -> timestamp) (db : table)
    (content file : string) :
  Forall2 (fun m sig =>
    DstPort sig = SID sig /\
    SID sig = nth 6 m EmptyString /\
    DstIP sig = nth 5 m EmptyString)
    (FindAllStringSubmatch re groups (ReplaceAll content nl " "))
    (snd (parseFile clock db content file)) /\
  (exists db' sig,
     parseFile clock db rule_text_ports file = (db', [sig]) /\
     DstIP sig = "80" /\ DstPort sig = "1000001" /\ SID sig = "1000001").
Proof.
  split.
  - unfold parseFile.
    eapply Forall2_impl;
      [|apply ftp_save_matches_records;
        apply (RegexpFacts.FindAllStringSubmatch_length re groups)].
    intros m sig Hm. unfold signature_of in Hm.
    destruct (List.length m <? 7)%nat; [discriminate|].
    injection Hm as <-. now repeat split.
  - unfold parseFile. rewrite matches_rule_text_ports.
    eexists. eexists. split; [reflexivity|]. now repeat split.
Qed.

End FtpFacts.

(** * Further properties *)

(** ** The upsert statement, continued *)

Module StoreMore.
Import Store Samples StoreFacts.

Lemma saveToDB_absent (now : timestamp) (db : table) (sig : Signature) :
  lookup (SID sig) db = None ->
  saveToDB now db sig = (db ++ [excluded now sig], Created).
Proof. intros H. now apply upsert_absent with (k := SID sig). Qed.

Lemma saveToDB_present (now : timestamp) (db : table) (sig : Signature)
    (r : Row) :
  lookup (SID sig) db = Some r ->
  exists pre post,
    db = pre ++ r :: post /\ lookup (SID sig) pre = None /\
    saveToDB now db sig =
      if holds (update_where r (excluded now sig))
      then (pre ++ update_set now r (excluded now sig) :: post, Updated)
      else (db, Unchanged).
Proof. intros H. now apply upsert_present with (k := SID sig). Qed.

(** The comparison does not look at the time of the call. *)
Lemma update_where_now (t1 t2 : timestamp) (r : Row) (sig : Signature) :
  update_where r (excluded t1 sig) = update_where r (excluded t2 sig).
Proof. reflexivity. Qed.

Lemma settled_iff (db : table) (sig : Signature) :
  settled db sig <->
  exists r, lookup (SID sig) db = Some r /\
            holds (update_where r (excluded 0%Z sig)) = false.
Proof.
  split.
  - intros H. specialize (H 0%Z).
    destruct (lookup (SID sig) db) as [r|] eqn:L.
    + exists r. split; [reflexivity|].
      destruct (saveToDB_present 0%Z db sig r L) as (pre & post & _ & _ & E).
      rewrite E in H.
      destruct (holds (update_where r (excluded 0%Z sig)));
        [discriminate | reflexivity].
    + rewrite (saveToDB_absent _ _ _ L) in H. discriminate.
  - intros (r & L & W) now.
    destruct (saveToDB_present now db sig r L) as (pre & post & _ & _ & E).
    rewrite E, (update_where_now now 0%Z), W. reflexivity.
Qed.

(** The row an update writes compares equal to the record written. *)
Lemma update_where_written (t1 t2 : timestamp) (r : Row) (sig : Signature) :
  sid r = Some (SID sig) ->
  update_where (update_set t1 r (excluded t1 sig)) (excluded t2 sig)
    = Some false.
Proof.
  intros Hs. unfold update_where, update_set, excluded; simpl.
  rewrite Hs. simpl. now rewrite !String.eqb_refl.
Qed.

(** After a [saveToDB] the row under the record's identity compares equal
    to the record, or could not be compared before either. *)
Lemma saveToDB_settles_row (db : table) (sig : Signature) (t1 : timestamp) :
  exists r, lookup (SID sig) (fst (saveToDB t1 db sig)) = Some r /\
            holds (update_where r (excluded 0%Z sig)) = false.
Proof.
  destruct (lookup (SID sig) db) as [r|] eqn:L.
  - pose proof (lookup_found _ _ _ L) as Hs.
    destruct (saveToDB_present t1 db sig r L) as (pre & post & Hdb & Hpre & E).
    rewrite E.
    destruct (holds (update_where r (excluded t1 sig))) eqn:W; simpl.
    + exists (update_set t1 r (excluded t1 sig)). split.
      * apply lookup_app_absent; [exact Hpre|].
        simpl. rewrite Hs. apply sql_eq_same.
      * now rewrite update_where_written.
    + exists r. split; [exact L|].
      now rewrite (update_where_now 0%Z t1).
  - rewrite (saveToDB_absent _ _ _ L). simpl.
    exists (excluded t1 sig). split.
    + apply lookup_app_absent; [exact L | apply sql_eq_same].
    + now rewrite update_where_same.
Qed.

(** X1. Whatever the store holds, a record saved twice in a row is written
    at most once: the second [saveToDB] returns the table it was given. *)
Theorem saveToDB_idempotent (db : table) (sig : Signature)
    (t1 t2 : timestamp) :
  saveToDB t2 (fst (saveToDB t1 db sig)) sig
    = (fst (saveToDB t1 db sig), Unchanged).
Proof.
  revert t2. change (settled (fst (saveToDB t1 db sig)) sig).
  apply settled_iff. apply saveToDB_settles_row.
Qed.

Lemma lookup_upsert_frame (now : timestamp) (e : Row) (k k' : string)
    (t : table) :
  sid e = Some k' -> k <> k' ->
  lookup k (fst (upsert now e t)) = lookup k t.
Proof.
  intros He Hk. induction t as [|r t IH]; simpl.
  - rewrite He. simpl.
    destruct (String.eqb k' k) eqn:E; [|reflexivity].
    apply String.eqb_eq in E. now subst.
  - unfold conflicts. rewrite He.
    destruct (holds (sql_eq (sid r) (Some k'))) eqn:C.
    + assert (N : holds (sql_eq (sid r) (Some k)) = false).
      { destruct (sid r) as [x|]; simpl in *; [|reflexivity].
        destruct (String.eqb x k') eqn:E1; [|discriminate].
        apply String.eqb_eq in E1. subst x.
        destruct (String.eqb k' k) eqn:E2; [|reflexivity].
        apply String.eqb_eq in E2. now subst. }
      destruct (holds (update_where r e)); simpl; now rewrite N.
    + destruct (upsert now e t) as [t' o]. simpl in *. now rewrite IH.
Qed.

(** X2. [saveToDB] works on one identity: the row stored under any other
    identity is the same before and after. *)
Theorem saveToDB_other_identity (now : timestamp) (db : table)
    (sig : Signature) (k : string) :
  k <> SID sig ->
  lookup k (fst (saveToDB now db sig)) = lookup k db.
Proof. intros H. now apply lookup_upsert_frame with (k' := SID sig). Qed.

Lemma saveToDB_other_identity_witness :
  lookup "2400000" (fst (saveToDB 20%Z [excluded 10%Z sig_a] sig_b))
    = lookup "2400000" [excluded 10%Z sig_a].
Proof.
  apply (saveToDB_other_identity 20%Z [excluded 10%Z sig_a] sig_b "2400000").
  discriminate.
Defined.

Lemma sql_or_true (a b : option bool) :
  sql_or a b = Some true -> a = Some true \/ b = Some true.
Proof. destruct a as [[|]|], b as [[|]|]; simpl; intros H; auto; discriminate. Qed.

Lemma sql_ne_true (x : option string) (y : string) :
  sql_ne x (Some y) = Some true -> exists a, x = Some a /\ a <> y.
Proof.
  destruct x as [a|]; simpl; [|discriminate].
  destruct (String.eqb a y) eqn:E; [discriminate|].
  intros _. exists a. split; [reflexivity|]. now apply String.eqb_neq.
Qed.

Lemma holds_sql_and (a b : option bool) :
  holds (sql_and a b) = true -> a = Some true /\ b = Some true.
Proof.
  destruct a as [[|]|], b as [[|]|]; simpl; intros H;
    try discriminate; now split.
Qed.

(** The [WHERE] holds only if a stored, non-null column differs. *)
Lemma update_where_differs (now : timestamp) (r : Row) (sig : Signature) :
  holds (update_where r (excluded now sig)) = true -> differs r sig.
Proof.
  unfold update_where. intros H.
  apply holds_sql_and in H as [_ D].
  unfold differs.
  assert (K : forall (i : nat) (x : option string) (y : string),
            nth_error (tracked r) i = Some x ->
            nth_error (tracked_of sig) i = Some (Some y) ->
            sql_ne x (Some y) = Some true ->
            exists i a, nth_error (tracked r) i = Some (Some a) /\
                        nth_error (tracked_of sig) i <> Some (Some a)).
  { intros i x y Hr Hs Hn. apply sql_ne_true in Hn as (a & -> & Ha).
    exists i, a. split; [exact Hr|]. rewrite Hs. intros E. injection E as E.
    now apply Ha. }
  repeat (apply sql_or_true in D as [D|D]).
  - exact (K 0 _ _ eq_refl eq_refl D).
  - exact (K 1 _ _ eq_refl eq_refl D).
  - exact (K 2 _ _ eq_refl eq_refl D).
  - exact (K 3 _ _ eq_refl eq_refl D).
  - exact (K 4 _ _ eq_refl eq_refl D).
  - exact (K 5 _ _ eq_refl eq_refl D).
  - exact (K 6 _ _ eq_refl eq_refl D).
  - exact (K 7 _ _ eq_refl eq_refl D).
Qed.

(** X3. What [saveToDB] does is decided by the row under the record's
    identity: it inserts exactly when there is none, and it updates exactly
    when there is one that differs from the record in a column whose stored
    value is not [NULL]. *)
Theorem saveToDB_outcome (now : timestamp) (db : table) (sig : Signature) :
  (snd (saveToDB now db sig) = Created <-> lookup (SID sig) db = None) /\
  (snd (saveToDB now db sig) = Updated <->
   exists r, lookup (SID sig) db = Some r /\ differs r sig).
Proof.
  destruct (lookup (SID sig) db) as [r|] eqn:L.
  - pose proof (lookup_found _ _ _ L) as Hs.
    destruct (saveToDB_present now db sig r L) as (pre & post & _ & _ & E).
    rewrite E.
    destruct (holds (update_where r (excluded now sig))) eqn:W; simpl.
    + split; [split; discriminate|]. split; [|reflexivity].
      intros _. exists r. split; [reflexivity|].
      now apply update_where_differs with (now := now).
    + split; [split; discriminate|]. split; [discriminate|].
      intros (r' & Hr & Hd). injection Hr as <-.
      rewrite (differs_update_where now r sig Hs Hd) in W. discriminate.
  - rewrite (saveToDB_absent _ _ _ L). simpl.
    split; [split; reflexivity|]. split; [discriminate|].
    intros (r & Hr & _). discriminate.
Qed.

End StoreMore.

(** ** A pass over an archive *)

Module IngestFacts.
Import Strs Regexp Store Samples StoreFacts StoreMore.

Lemma Pass_app (db db1 db2 : table) (s1 s2 : list Signature) :
  Pass db s1 db1 -> Pass db1 s2 db2 -> Pass db (s1 ++ s2) db2.
Proof.
  intros H1 H2. induction H1 as [db|db now sig sigs db' _ IH]; simpl.
  - exact H2.
  - econstructor. now apply IH.
Qed.

Lemma settled_frame (now : timestamp) (db : table) (a b : Signature) :
  SID a <> SID b -> settled db a -> settled (fst (saveToDB now db b)) a.
Proof.
  intros Hk Ha. apply settled_iff in Ha as (r & L & W). apply settled_iff.
  exists r. split; [|exact W].
  unfold saveToDB.
  now rewrite (lookup_upsert_frame now (excluded now b) (SID a) (SID b)).
Qed.

Lemma saveToDB_settles (now : timestamp) (db : table) (sig : Signature) :
  settled (fst (saveToDB now db sig)) sig.
Proof. apply settled_iff. apply saveToDB_settles_row. Qed.

(** A record the table has taken stays taken through a pass of records of
    other identities. *)
Lemma Pass_settled_frame (db db' : table) (sigs : list Signature)
    (a : Signature) :
  Pass db sigs db' -> settled db a ->
  (forall s, In s sigs -> SID s <> SID a) -> settled db' a.
Proof.
  intros H. induction H as [db|db now sig sigs db' _ IH]; intros Ha Hn.
  - exact Ha.
  - apply IH.
    + apply settled_frame; [|exact Ha].
      intros E. apply (Hn sig); [now left | now symmetry].
    + intros s Hs. apply Hn. now right.
Qed.

(** After a pass of records of pairwise distinct identities the table has
    taken every one of them. *)
Lemma Pass_settles (db db' : table) (sigs : list Signature) :
  Pass db sigs db' -> NoDup (map SID sigs) -> Forall (settled db') sigs.
Proof.
  intros H. induction H as [db|db now sig sigs db' HP IH]; intros Hd.
  - constructor.
  - simpl in Hd. apply NoDup_cons_iff in Hd as [Hn Hd]. constructor.
    + apply (Pass_settled_frame _ _ _ _ HP); [apply saveToDB_settles|].
      intros s Hs E. apply Hn. rewrite <- E. now apply in_map.
    + now apply IH.
Qed.

(** A [saveToDB] keeps every row, with its identity, its creation time and
    its deletion mark. *)
Lemma saveToDB_keeps_row (now : timestamp) (db : table) (sig : Signature)
    (k : string) (r : Row) :
  lookup k db = Some r ->
  exists r', lookup k (fst (saveToDB now db sig)) = Some r' /\
             sid r' = sid r /\ created_at r' = created_at r /\
             deleted_at r' = deleted_at r.
Proof.
  intros L. destruct (String.string_dec k (SID sig)) as [->|Hk].
  - pose proof (lookup_found _ _ _ L) as Hs.
    destruct (saveToDB_present now db sig r L) as (pre & post & _ & Hpre & E).
    rewrite E. destruct (holds (update_where r (excluded now sig))); simpl.
    + exists (update_set now r (excluded now sig)).
      split; [|now repeat split].
      apply lookup_app_absent; [exact Hpre|].
      simpl. rewrite Hs. apply sql_eq_same.
    + exists r. now repeat split.
  - exists r. split; [|now repeat split].
    unfold saveToDB.
    now rewrite (lookup_upsert_frame now (excluded now sig) k (SID sig)).
Qed.

Lemma Pass_keeps_row (db db' : table) (sigs : list Signature) (k : string)
    (r : Row) :
  Pass db sigs db' -> lookup k db = Some r ->
  exists r', lookup k db' = Some r' /\
             sid r' = sid r /\ created_at r' = created_at r /\
             deleted_at r' = deleted_at r.
Proof.
  intros H. revert r. induction H as [db|db now sig sigs db' _ IH]; intros r L.
  - exists r. now repeat split.
  - destruct (saveToDB_keeps_row now db sig k r L) as (r1 & L1 & S1 & C1 & D1).
    destruct (IH r1 L1) as (r2 & L2 & S2 & C2 & D2).
    exists r2. split; [exact L2|]. repeat split; congruence.
Qed.

Lemma Pass_unique_sid (db db' : table) (sigs : list Signature) :
  Pass db sigs db' -> unique_sid db -> unique_sid db'.
Proof.
  intros H. induction H as [db|db now sig sigs db' _ IH]; intros U.
  - exact U.
  - apply IH. now apply saveToDB_unique_sid.
Qed.

(** *** http.go *)

Lemma http_save_matches_Pass (ms : list caps) (clock : nat -> timestamp)
    (i : nat) (file : string) (db db' : table) (sigs : list Signature) :
  Http.save_matches clock i file ms db = Some (db', sigs) -> Pass db sigs db'.
Proof.
  revert i db db' sigs. induction ms as [|m ms IH]; intros i db db' sigs; simpl.
  - intros H. injection H as <- <-. constructor.
  - destruct (Http.signature_of m file) as [[sig|]|]; [| |discriminate].
    + destruct (Http.save_matches clock (S i) file ms
                  (fst (saveToDB (clock i) db sig))) as [[d l]|] eqn:E;
        [|discriminate].
      intros H. injection H as <- <-. econstructor. now apply (IH _ _ _ _ E).
    + apply IH.
Qed.

Lemma http_processArchive_Pass (members : list Tar.member)
    (clock : nat -> nat -> timestamp) (j : nat) (db db' : table)
    (sigs : list Signature) :
  Http.processArchive clock j db members = Some (db', sigs) ->
  Pass db sigs db'.
Proof.
  revert j db db' sigs.
  induction members as [|h rest IH]; intros j db db' sigs; simpl.
  - intros H. injection H as <- <-. constructor.
  - destruct (Ascii.eqb (Tar.Typeflag h) Tar.TypeReg); [|apply IH].
    destruct (Http.parseFile (clock j) db (Tar.Content h) (Tar.Name h))
      as [[d1 l1]|] eqn:E1; [|discriminate].
    destruct (Http.processArchive clock (S j) d1 rest) as [[d2 l2]|] eqn:E2;
      [|discriminate].
    intros H. injection H as <- <-.
    apply Pass_app with (db1 := d1); [|now apply (IH _ _ _ _ E2)].
    now apply http_save_matches_Pass in E1.
Qed.

(** The records of a pass depend on the matches alone; on a table that has
    taken them all, the pass writes nothing. *)
Lemma http_save_matches_again (ms : list caps) (c c' : nat -> timestamp)
    (i i' : nat) (file : string) (db db' dbX : table)
    (sigs : list Signature) :
  Http.save_matches c i file ms db = Some (db', sigs) ->
  Forall (settled dbX) sigs ->
  Http.save_matches c' i' file ms dbX = Some (dbX, sigs).
Proof.
  revert i i' db db' sigs.
  induction ms as [|m ms IH]; intros i i' db db' sigs; simpl.
  - intros H _. now injection H as _ <-.
  - destruct (Http.signature_of m file) as [[sig|]|]; [| |discriminate].
    + destruct (Http.save_matches c (S i) file ms
                  (fst (saveToDB (c i) db sig))) as [[d l]|] eqn:E;
        [|discriminate].
      intros H F. injection H as _ <-.
      apply Forall_cons_iff in F as [Hs F].
      rewrite (Hs (c' i')). simpl.
      now rewrite (IH _ (S i') _ _ _ E F).
    + apply IH.
Qed.

Lemma http_processArchive_again (members : list Tar.member)
    (c c' : nat -> nat -> timestamp) (j j' : nat) (db db' dbX : table)
    (sigs : list Signature) :
  Http.processArchive c j db members = Some (db', sigs) ->
  Forall (settled dbX) sigs ->
  Http.processArchive c' j' dbX members = Some (dbX, sigs).
Proof.
  revert j j' db db' sigs.
  induction members as [|h rest IH]; intros j j' db db' sigs; simpl.
  - intros H _. now injection H as _ <-.
  - destruct (Ascii.eqb (Tar.Typeflag h) Tar.TypeReg); [|apply IH].
    destruct (Http.parseFile (c j) db (Tar.Content h) (Tar.Name h))
      as [[d1 l1]|] eqn:E1; [|discriminate].
    destruct (Http.processArchive c (S j) d1 rest) as [[d2 l2]|] eqn:E2;
      [|discriminate].
    intros H F. injection H as _ <-.
    apply Forall_app in F as [F1 F2].
    unfold Http.parseFile in *.
    rewrite (http_save_matches_again _ _ (c' j') _ 0 _ _ _ dbX _ E1 F1).
    now rewrite (IH _ (S j') _ _ _ E2 F2).
Qed.

(** X4. Ingesting a suricata archive a second time writes nothing,
    provided the identities of its records are pairwise distinct: the table
    the first run left is returned as it is, [updated_at] included. *)
Theorem http_archive_reingest (members : list Tar.member)
    (c c' : nat -> nat -> timestamp) (j j' : nat) (db db1 : table)
    (sigs : list Signature) :
  Http.processArchive c j db members = Some (db1, sigs) ->
  NoDup (map SID sigs) ->
  Http.processArchive c' j' db1 members = Some (db1, sigs).
Proof.
  intros H Hd.
  apply (http_processArchive_again members c c' j j' db db1 db1 sigs H).
  apply (Pass_settles db); [|exact Hd].
  now apply http_processArchive_Pass in H.
Qed.

Lemma http_archive_reingest_witness :
  Http.processArchive second_run 0 (fst http_after) archive_http
    = Some (fst http_after, snd http_after).
Proof.
  apply (http_archive_reingest archive_http first_run second_run 0 0 []).
  - vm_compute. reflexivity.
  - vm_compute. constructor; [intros [H|[]]; discriminate|].
    constructor; [intros []|constructor].
Defined.

(** *** ftp.go *)

Lemma ftp_save_matches_Pass (ms : list caps) (clock : nat -> timestamp)
    (i : nat) (file : string) (db : table) :
  Pass db (snd (Ftp.save_matches clock i file ms db))
          (fst (Ftp.save_matches clock i file ms db)).
Proof.
  revert i db. induction ms as [|m ms IH]; intros i db; simpl.
  - constructor.
  - destruct (Ftp.signature_of m file) as [sig|]; [|apply IH].
    specialize (IH (S i) (fst (saveToDB (clock i) db sig))).
    destruct (Ftp.save_matches clock (S i) file ms
                (fst (saveToDB (clock i) db sig))) as [d l].
    simpl in *. econstructor. exact IH.
Qed.

Lemma ftp_processArchive_Pass (members : list Tar.member)
    (clock : nat -> nat -> timestamp) (j : nat) (db : table) :
  Pass db (snd (Ftp.processArchive clock j db members))
          (fst (Ftp.processArchive clock j db members)).
Proof.
  revert j db. induction members as [|h rest IH]; intros j db; simpl.
  - constructor.
  - destruct (Ascii.eqb (Tar.Typeflag h) Tar.TypeReg); [|apply IH].
    pose proof (ftp_save_matches_Pass
                  (FindAllStringSubmatch Ftp.re Ftp.groups
                     (ReplaceAll (Tar.Content h) nl " "))
                  (clock j) 0 (Tar.Name h) db) as P1.
    unfold Ftp.parseFile.
    destruct (Ftp.save_matches (clock j) 0 (Tar.Name h) _ db) as [d1 l1].
    specialize (IH (S j) d1).
    destruct (Ftp.processArchive clock (S j) d1 rest) as [d2 l2].
    simpl in *. now apply Pass_app with (db1 := d1).
Qed.

Lemma ftp_save_matches_again (ms : list caps) (c c' : nat -> timestamp)
    (i i' : nat) (file : string) (db dbX : table) :
  Forall (settled dbX) (snd (Ftp.save_matches c i file ms db)) ->
  Ftp.save_matches c' i' file ms dbX
    = (dbX, snd (Ftp.save_matches c i file ms db)).
Proof.
  revert i i' db. induction ms as [|m ms IH]; intros i i' db; simpl.
  - reflexivity.
  - destruct (Ftp.signature_of m file) as [sig|]; [|apply IH].
    specialize (IH (S i) (S i') (fst (saveToDB (c i) db sig))).
    destruct (Ftp.save_matches c (S i) file ms
                (fst (saveToDB (c i) db sig))) as [d l].
    simpl in *. intros F. apply Forall_cons_iff in F as [Hs F].
    rewrite (Hs (c' i')). simpl. now rewrite (IH F).
Qed.

Lemma ftp_processArchive_again (members : list Tar.member)
    (c c' : nat -> nat -> timestamp) (j j' : nat) (db dbX : table) :
  Forall (settled dbX) (snd (Ftp.processArchive c j db members)) ->
  Ftp.processArchive c' j' dbX members
    = (dbX, snd (Ftp.processArchive c j db members)).
Proof.
  revert j j' db. induction members as [|h rest IH]; intros j j' db; simpl.
  - reflexivity.
  - destruct (Ascii.eqb (Tar.Typeflag h) Tar.TypeReg); [|apply IH].
    unfold Ftp.parseFile.
    pose proof (ftp_save_matches_again
                  (FindAllStringSubmatch Ftp.re Ftp.groups
                     (ReplaceAll (Tar.Content h) nl " "))
                  (c j) (c' j') 0 0 (Tar.Name h) db dbX) as A1.
    destruct (Ftp.save_matches (c j) 0 (Tar.Name h) _ db) as [d1 l1].
    specialize (IH (S j) (S j') d1).
    destruct (Ftp.processArchive c (S j) d1 rest) as [d2 l2].
    simpl in *. intros F. apply Forall_app in F as [F1 F2].
    rewrite (A1 F1). now rewrite (IH F2).
Qed.

(** X5. The same for a snort archive: a second run over an archive whose
    records have pairwise distinct identities writes nothing. *)
Theorem ftp_archive_reingest (members : list Tar.member)
    (c c' : nat -> nat -> timestamp) (j j' : nat) (db : table) :
  NoDup (map SID (snd (Ftp.processArchive c j db members))) ->
  Ftp.processArchive c' j' (fst (Ftp.processArchive c j db members)) members
    = Ftp.processArchive c j db members.
Proof.
  intros Hd.
  rewrite (ftp_processArchive_again members c c' j j' db).
  - now destruct (Ftp.processArchive c j db members).
  - apply (Pass_settles db); [apply ftp_processArchive_Pass | exact Hd].
Qed.

Lemma ftp_archive_reingest_witness :
  Ftp.processArchive second_run 0
    (fst (Ftp.processArchive first_run 0 [] archive_ftp)) archive_ftp
    = Ftp.processArchive first_run 0 [] archive_ftp.
Proof.
  apply (ftp_archive_reingest archive_ftp first_run second_run 0 0 []).
  vm_compute. constructor; [intros []|constructor].
Defined.

(** X6. Ingesting an archive, by either program, never leaves two rows
    with the same [sid]. *)
Theorem archive_keeps_unique_sid (db : table) :
  unique_sid db ->
  (forall c j members db' sigs,
     Http.processArchive c j db members = Some (db', sigs) ->
     unique_sid db') /\
  (forall c j members,
     unique_sid (fst (Ftp.processArchive c j db members))).
Proof.
  intros U. split.
  - intros c j members db' sigs H.
    apply http_processArchive_Pass in H. now apply (Pass_unique_sid db _ sigs).
  - intros c j members.
    now apply (Pass_unique_sid db _ _ (ftp_processArchive_Pass members c j db)).
Qed.

Lemma archive_keeps_unique_sid_witness :
  unique_sid (fst (Ftp.processArchive first_run 0 [] archive_ftp)).
Proof.
  apply (archive_keeps_unique_sid []). exact I.
Defined.

(** X7. Ingesting an archive, by either program, removes no row and
    changes no row's identity, creation time or deletion mark: a record
    that was deleted stays deleted. *)
Theorem archive_keeps_rows (db : table) (k : string) (r : Row) :
  lookup k db = Some r ->
  (forall c j members db' sigs,
     Http.processArchive c j db members = Some (db', sigs) ->
     exists r', lookup k db' = Some r' /\ sid r' = sid r /\
                created_at r' = created_at r /\
                deleted_at r' = deleted_at r) /\
  (forall c j members,
     exists r', lookup k (fst (Ftp.processArchive c j db members)) = Some r'
                /\ sid r' = sid r /\ created_at r' = created_at r /\
                deleted_at r' = deleted_at r).
Proof.
  intros L. split.
  - intros c j members db' sigs H.
    apply http_processArchive_Pass in H.
    exact (Pass_keeps_row db db' sigs k r H L).
  - intros c j members.
    exact (Pass_keeps_row db _ _ k r (ftp_processArchive_Pass members c j db) L).
Qed.

Lemma archive_keeps_rows_witness :
  exists r', lookup "1000001"
               (fst (Ftp.processArchive first_run 0 [row_null_msg]
                       archive_ftp)) = Some r' /\
             sid r' = sid row_null_msg /\
             created_at r' = created_at row_null_msg /\
             deleted_at r' = deleted_at row_null_msg.
Proof.
  apply (archive_keeps_rows [row_null_msg] "1000001" row_null_msg).
  reflexivity.
Defined.

(** Every row of a table built by the two programs holds a record: a pass
    over a table whose rows all hold records, the empty table among them,
    leaves one. *)
Lemma Pass_rows_hold_records (db db' : table) (sigs : list Signature) :
  Pass db sigs db' ->
  Forall (fun r => exists old, holds_record r old) db ->
  Forall (fun r => exists old, holds_record r old) db'.
Proof.
  intros H. induction H as [db|db now sig sigs db' _ IH]; intros F.
  - exact F.
  - apply IH. now apply saveToDB_rows_hold_records.
Qed.

End IngestFacts.

(** ** What a group captures *)

Module RegexpMore.
Import Strs Regexp StrsFacts RegexpFacts.

Lemma nth_set_cap_other (i j : nat) (v : string) (c : caps) :
  i <> j -> nth j (set_cap i v c) EmptyString = nth j c EmptyString.
Proof.
  revert i j. induction c as [|x c IH]; intros [|i] [|j] H; simpl;
    try reflexivity; try contradiction.
  apply IH. intros E. apply H. now rewrite E.
Qed.

Lemma nth_set_cap_same (i : nat) (v : string) (c : caps) :
  i < List.length c -> nth i (set_cap i v c) EmptyString = v.
Proof.
  revert i. induction c as [|x c IH]; intros [|i] H; simpl in *;
    try lia; [reflexivity|]. apply IH. lia.
Qed.

Lemma consumed_append (w s : string) : consumed (w ++ s) s = w.
Proof.
  unfold consumed. rewrite length_append.
  replace (length w + length s - length s) with (length w) by lia.
  apply take_append.
Qed.

(** A repetition hands on the submatches it was given. *)
Lemma rep_same (R : Type) (fuel : nat) (greedy : bool) (least : nat)
    (a : atom) (s : string) (c : caps) (k : string -> caps -> option R)
    (x : R) :
  rep R fuel greedy least a s c k = Some x -> exists s', k s' c = Some x.
Proof.
  revert least s. induction fuel as [|f IH]; intros least s; cbn [rep].
  - destruct greedy, least; try discriminate.
    + intros H. now exists s.
    + destruct (k s c) eqn:E; [|discriminate].
      intros H. injection H as ->. now exists s.
  - destruct greedy.
    + destruct (atom_step a s) as [s'|].
      * destruct (rep R f true (pred least) a s' c k) eqn:E.
        -- intros H. injection H as ->. now apply IH in E.
        -- destruct least; [|discriminate]. intros H. now exists s.
      * destruct least; [|discriminate]. intros H. now exists s.
    + destruct least.
      * destruct (k s c) eqn:E.
        -- intros H. injection H as ->. now exists s.
        -- destruct (atom_step a s) as [s'|]; [|discriminate]. apply IH.
      * destruct (atom_step a s) as [s'|]; [|discriminate]. apply IH.
Qed.

(** A part of a pattern changes the submatches of its own groups only. *)
Lemma run_frame (R : Type) (n : nat) (r : regex) (s : string) (c : caps)
    (k : string -> caps -> option R) (x : R) :
  List.length c = n -> run R r s c k = Some x ->
  exists s' c',
    List.length c' = n /\
    (forall j, no_grp j r = true ->
               nth j c' EmptyString = nth j c EmptyString) /\
    k s' c' = Some x.
Proof.
  revert s c k. induction r as [|a|g l a|r1 IH1 r2 IH2|r1 IH1 r2 IH2|i r IH];
    intros s c k Hc; cbn [run].
  - intros H. now exists s, c.
  - destruct (atom_step a s) as [s'|]; [|discriminate].
    intros H. now exists s', c.
  - intros H. apply rep_same in H as [s' H]. now exists s', c.
  - intros H. apply (IH1 _ _ _ Hc) in H as (s1 & c1 & Hc1 & K1 & H).
    apply (IH2 _ _ _ Hc1) in H as (s2 & c2 & Hc2 & K2 & H).
    exists s2, c2. split; [exact Hc2|]. split; [|exact H].
    intros j Hj. simpl in Hj. apply andb_prop in Hj as [J1 J2].
    now rewrite (K2 j J2), (K1 j J1).
  - destruct (run R r1 s c k) eqn:E.
    + intros H. injection H as ->.
      apply (IH1 _ _ _ Hc) in E as (s1 & c1 & Hc1 & K1 & H).
      exists s1, c1. split; [exact Hc1|]. split; [|exact H].
      intros j Hj. simpl in Hj. apply andb_prop in Hj as [J1 _]. now apply K1.
    + intros H. apply (IH2 _ _ _ Hc) in H as (s1 & c1 & Hc1 & K1 & H).
      exists s1, c1. split; [exact Hc1|]. split; [|exact H].
      intros j Hj. simpl in Hj. apply andb_prop in Hj as [_ J2]. now apply K1.
  - intros H. apply (IH _ _ _ Hc) in H as (s1 & c1 & Hc1 & K1 & H).
    exists s1, (set_cap i (consumed s s1) c1).
    split; [now rewrite length_set_cap|]. split; [|exact H].
    intros j Hj. simpl in Hj. apply andb_prop in Hj as [J1 J2].
    rewrite nth_set_cap_other; [now apply K1|].
    apply negb_true_iff in J1. now apply Nat.eqb_neq in J1.
Qed.

(** A repetition of a byte class consumes bytes of the class, at least as
    many as it must. *)
Lemma rep_span (R : Type) (fuel : nat) (greedy : bool) (least : nat)
    (a : atom) (s : string) (c : caps) (k : string -> caps -> option R)
    (x : R) :
  folded a = [] ->
  rep R fuel greedy least a s c k = Some x ->
  exists w s',
    s = (w ++ s')%string /\ all_bytes (byte_ok a) w = true /\
    least <= length w /\ k s' c = Some x.
Proof.
  intros Hf.
  assert (A : forall s s', atom_step a s = Some s' ->
                exists b, s = String b s' /\ byte_ok a b = true).
  { intros [|b t] t'; simpl; [discriminate|]. rewrite Hf.
    destruct (byte_ok a b) eqn:E; [|discriminate].
    intros H. injection H as <-. now exists b. }
  assert (Stop : forall s, k s c = Some x ->
                   exists w s', s = (w ++ s')%string /\
                     all_bytes (byte_ok a) w = true /\ 0 <= length w /\
                     k s' c = Some x).
  { intros t H. exists EmptyString, t. simpl. repeat split; [lia | exact H]. }
  assert (More : forall least s s' w t,
                   atom_step a s = Some s' ->
                   s' = (w ++ t)%string ->
                   all_bytes (byte_ok a) w = true ->
                   pred least <= length w -> k t c = Some x ->
                   exists w s', s = (w ++ s')%string /\
                     all_bytes (byte_ok a) w = true /\ least <= length w /\
                     k s' c = Some x).
  { intros l t t' w u Ha -> Hw Hl Hk. apply A in Ha as (b & -> & Hb).
    exists (String b w), u. simpl. rewrite Hb, Hw.
    repeat split; [lia | exact Hk]. }
  revert least s. induction fuel as [|f IH]; intros least s; cbn [rep].
  - destruct greedy, least; try discriminate.
    + apply Stop.
    + destruct (k s c) eqn:E; [|discriminate].
      intros H. injection H as ->. now apply Stop.
  - destruct greedy.
    + destruct (atom_step a s) as [s'|] eqn:Ha.
      * destruct (rep R f true (pred least) a s' c k) eqn:E.
        -- intros H. injection H as ->.
           apply IH in E as (w & t & Hs & Hw & Hl & Hk).
           exact (More least s s' w t Ha Hs Hw Hl Hk).
        -- destruct least; [|discriminate]. apply Stop.
      * destruct least; [|discriminate]. apply Stop.
    + destruct least.
      * destruct (k s c) eqn:E.
        -- intros H. injection H as ->. now apply Stop.
        -- destruct (atom_step a s) as [s'|] eqn:Ha; [|discriminate].
           intros H. apply IH in H as (w & t & Hs & Hw & Hl & Hk).
           exact (More 0 s s' w t Ha Hs Hw Hl Hk).
      * destruct (atom_step a s) as [s'|] eqn:Ha; [|discriminate].
        intros H. apply IH in H as (w & t & Hs & Hw & Hl & Hk).
        exact (More (S least) s s' w t Ha Hs Hw Hl Hk).
Qed.

(** A group that is a repetition of a byte class, followed in a sequence
    by parts that do not set it again: at the end of the sequence its
    submatch is made of bytes of the class. *)
Lemma seq_group_span (R : Type) (n i : nat) (greedy : bool) (least : nat)
    (a : atom) (pre post : list regex) (s : string) (c : caps)
    (k : string -> caps -> option R) (x : R) :
  folded a = [] -> i < n ->
  Forall (fun r => no_grp i r = true) post ->
  List.length c = n ->
  run R (seq (pre ++ Grp i (Rep greedy least a) :: post)) s c k = Some x ->
  exists s' c',
    List.length c' = n /\
    all_bytes (byte_ok a) (nth i c' EmptyString) = true /\
    least <= length (nth i c' EmptyString) /\
    k s' c' = Some x.
Proof.
  intros Hf Hi Hpost. revert s c.
  induction pre as [|r pre IH]; intros s c Hc; cbn [app seq run].
  - intros H. apply rep_span in H as (w & t & -> & Hw & Hl & H); [|exact Hf].
    rewrite consumed_append in H.
    assert (G : exists s' c', List.length c' = n /\
                  nth i c' EmptyString = w /\
                  run R (seq post) s' c' k = Some x).
    { exists t, (set_cap i w c). rewrite length_set_cap.
      split; [exact Hc|]. split; [|exact H].
      apply nth_set_cap_same. now rewrite Hc. }
    clear H. destruct G as (s' & c' & Hc' & Hn & H). subst w.
    revert s' c' Hc' Hw Hl H.
    induction Hpost as [|r post Hr _ IHp]; intros s' c' Hc' Hw Hl;
      cbn [seq run].
    + intros H. now exists s', c'.
    + intros H. apply (run_frame _ n) in H as (s2 & c2 & Hc2 & K & H);
        [|exact Hc'].
      apply (IHp s2 c2 Hc2); [| |exact H]; now rewrite (K i Hr).
  - intros H. apply (run_frame _ n) in H as (s1 & c1 & Hc1 & _ & H);
      [|exact Hc].
    now apply (IH s1 c1 Hc1).
Qed.

(** The same for a whole match: entry [i] of the submatches. *)
Lemma match_here_group (groups i : nat) (greedy : bool) (least : nat)
    (a : atom) (pre post : list regex) (s rest : string) (m : caps) :
  folded a = [] -> 0 < i -> i <= groups ->
  Forall (fun r => no_grp i r = true) post ->
  match_here (seq (pre ++ Grp i (Rep greedy least a) :: post)) groups s
    = Some (rest, m) ->
  all_bytes (byte_ok a) (nth i m EmptyString) = true /\
  least <= length (nth i m EmptyString).
Proof.
  intros Hf H0 Hi Hpost H. unfold match_here in H.
  apply (seq_group_span _ (S groups) i) in H as (s' & c' & Hc & Hw & Hl & H);
    [|exact Hf|lia|exact Hpost|apply repeat_length].
  assert (E : m = set_cap 0 (consumed s s') c') by congruence.
  rewrite E, nth_set_cap_other by lia. now split.
Qed.

(** A property of every anchored match holds of every match found. *)
Lemma FindAllStringSubmatch_all (P : caps -> Prop) (r : regex)
    (groups : nat) (s : string) :
  (forall t rest m, match_here r groups t = Some (rest, m) -> P m) ->
  Forall P (FindAllStringSubmatch r groups s).
Proof.
  intros H. unfold FindAllStringSubmatch. generalize (S (length s)) as fuel.
  intros fuel. revert s. induction fuel as [|f IH]; intros s; cbn [find_all];
    [constructor|].
  destruct (match_here r groups s) as [[rest c]|] eqn:E.
  - constructor; [now apply (H s rest)|].
    destruct (Nat.ltb (length rest) (length s)); [apply IH|].
    destruct s; [constructor | apply IH].
  - destruct s; [constructor | apply IH].
Qed.

End RegexpMore.

(** ** What the grammars emit *)

Module GrammarFacts.
Import Strs Regexp Store Samples StrsFacts RegexpFacts RegexpMore StoreFacts
       StoreMore.

Lemma length_nonempty (w : string) : 1 <= length w -> w <> EmptyString.
Proof. destruct w; simpl; [lia | discriminate]. Qed.

Lemma Forall2_Forall_r (A B : Type) (R : A -> B -> Prop) (P : A -> Prop)
    (Q : B -> Prop) (l1 : list A) (l2 : list B) :
  (forall a b, R a b -> P a -> Q b) ->
  Forall2 R l1 l2 -> Forall P l1 -> Forall Q l2.
Proof.
  intros H F. induction F as [|a b l1 l2 Hab _ IH]; intros HP.
  - constructor.
  - apply Forall_cons_iff in HP as [Pa HP].
    constructor; [now apply (H a b) | now apply IH].
Qed.

(** Capture 5 of the message-bearing grammar: one digit or more. *)
Lemma http_match_sid (t rest : string) (m : caps) :
  match_here Http.re Http.groups t = Some (rest, m) ->
  all_bytes is_digit (nth 5 m EmptyString) = true /\
  1 <= length (nth 5 m EmptyString).
Proof.
  intros H.
  change Http.re with
    (seq ([ lits_i "alert "; Grp 1 (plus word_i); lits_i " ";
            Http.address 2; lits_i " any -> "; Http.address 3;
            lits_i " any "; lazy_star any_s; lits_i "msg:"; lits_i dq;
            Grp 4 (lazy_star any_s); lits_i dq; lits_i ";";
            lazy_star any_s; lits_i "sid:" ]
          ++ Grp 5 (Rep true 1 digit) :: [lits_i ";"])) in H.
  apply match_here_group in H; [exact H | reflexivity | lia | | ].
  - unfold Http.groups. lia.
  - repeat constructor.
Qed.

(** X8. Every record the message-bearing grammar hands to [saveToDB] has
    an identity made of one or more decimal digits: [parseFile] never
    emits an empty identity. *)
Theorem http_sid_digits (clock : nat -> timestamp) (db : table)
    (content file : string) :
  exists db' sigs,
    Http.parseFile clock db content file = Some (db', sigs) /\
    Forall (fun sig => SID sig <> EmptyString /\
                       all_bytes is_digit (SID sig) = true) sigs.
Proof.
  destruct (HttpFacts.parseFile_records clock db content file)
    as (db' & sigs & E & F).
  exists db', sigs. split; [exact E|].
  eapply Forall2_Forall_r; [|exact F|].
  - intros m sig Hm Pm. cbv beta in Pm.
    apply HttpFacts.signature_of_fields in Hm
      as (_ & _ & _ & _ & _ & Hs & _).
    rewrite Hs. exact Pm.
  - apply FindAllStringSubmatch_all. intros t rest m H.
    apply http_match_sid in H as [Hd Hl].
    split; [now apply length_nonempty | exact Hd].
Qed.

Ltac ftp_group H :=
  apply match_here_group in H;
  [ destruct H as [Hb Hl]; split; [now apply length_nonempty | exact Hb]
  | reflexivity | lia | unfold Ftp.groups; lia | repeat constructor ].

(** Captures 2 to 6 of the port-bearing grammar. *)
Lemma ftp_match_groups (t rest : string) (m : caps) :
  match_here Ftp.re Ftp.groups t = Some (rest, m) ->
  token (nth 2 m EmptyString) /\ token (nth 3 m EmptyString) /\
  token (nth 4 m EmptyString) /\ token (nth 5 m EmptyString) /\
  nth 6 m EmptyString <> EmptyString /\
  all_bytes is_digit (nth 6 m EmptyString) = true.
Proof.
  intros H.
  assert (H2 := H). assert (H3 := H). assert (H4 := H).
  assert (H5 := H). assert (H6 := H).
  change Ftp.re with
    (seq ([ lits_i "alert "; Grp 1 (plus word_i); lits_i " " ]
          ++ Grp 2 (Rep true 1 nonspace)
          :: [ lits_i " "; Grp 3 (plus nonspace); lits_i " -> ";
               Grp 4 (plus nonspace); lits_i " "; Grp 5 (plus nonspace);
               lazy_star any; lits_i "sid:"; Grp 6 (plus digit);
               lits_i ";" ])) in H2.
  change Ftp.re with
    (seq ([ lits_i "alert "; Grp 1 (plus word_i); lits_i " ";
            Grp 2 (plus nonspace); lits_i " " ]
          ++ Grp 3 (Rep true 1 nonspace)
          :: [ lits_i " -> "; Grp 4 (plus nonspace); lits_i " ";
               Grp 5 (plus nonspace); lazy_star any; lits_i "sid:";
               Grp 6 (plus digit); lits_i ";" ])) in H3.
  change Ftp.re with
    (seq ([ lits_i "alert "; Grp 1 (plus word_i); lits_i " ";
            Grp 2 (plus nonspace); lits_i " "; Grp 3 (plus nonspace);
            lits_i " -> " ]
          ++ Grp 4 (Rep true 1 nonspace)
          :: [ lits_i " "; Grp 5 (plus nonspace); lazy_star any;
               lits_i "sid:"; Grp 6 (plus digit); lits_i ";" ])) in H4.
  change Ftp.re with
    (seq ([ lits_i "alert "; Grp 1 (plus word_i); lits_i " ";
            Grp 2 (plus nonspace); lits_i " "; Grp 3 (plus nonspace);
            lits_i " -> "; Grp 4 (plus nonspace); lits_i " " ]
          ++ Grp 5 (Rep true 1 nonspace)
          :: [ lazy_star any; lits_i "sid:"; Grp 6 (plus digit);
               lits_i ";" ])) in H5.
  change Ftp.re with
    (seq ([ lits_i "alert "; Grp 1 (plus word_i); lits_i " ";
            Grp 2 (plus nonspace); lits_i " "; Grp 3 (plus nonspace);
            lits_i " -> "; Grp 4 (plus nonspace); lits_i " ";
            Grp 5 (plus nonspace); lazy_star any; lits_i "sid:" ]
          ++ Grp 6 (Rep true 1 digit) :: [ lits_i ";" ])) in H6.
  split; [ftp_group H2|]. split; [ftp_group H3|].
  split; [ftp_group H4|]. split; [ftp_group H5|].
  ftp_group H6.
Qed.

Lemma ftp_sid_nonempty (clock : nat -> timestamp) (db : table)
    (content file : string) :
  Forall (fun sig => SID sig <> EmptyString)
         (snd (Ftp.parseFile clock db content file)).
Proof.
  unfold Ftp.parseFile.
  eapply Forall2_Forall_r;
    [| apply FtpFacts.ftp_save_matches_records;
       apply (FindAllStringSubmatch_length Ftp.re Ftp.groups)
     | apply (FindAllStringSubmatch_all _ Ftp.re Ftp.groups);
       intros t rest m H; exact (ftp_match_groups t rest m H) ].
  intros m sig Hm (_ & _ & _ & _ & N6 & _).
  unfold Ftp.signature_of in Hm.
  destruct (List.length m <? 7)%nat; [discriminate|].
  now injection Hm as <-.
Qed.

(** X9. Every record the port-bearing grammar hands to [saveToDB] has an
    identity made of one or more decimal digits, and its [Proto], [SrcIP],
    [SrcPort] and [DstIP] are tokens: not empty and free of white space. *)
Theorem ftp_record_fields (clock : nat -> timestamp) (db : table)
    (content file : string) :
  Forall (fun sig =>
            SID sig <> EmptyString /\
            all_bytes is_digit (SID sig) = true /\
            token (Proto sig) /\ token (SrcIP sig) /\
            token (SrcPort sig) /\ token (DstIP sig))
         (snd (Ftp.parseFile clock db content file)).
Proof.
  unfold Ftp.parseFile.
  eapply Forall2_Forall_r;
    [| apply FtpFacts.ftp_save_matches_records;
       apply (FindAllStringSubmatch_length Ftp.re Ftp.groups)
     | apply (FindAllStringSubmatch_all _ Ftp.re Ftp.groups);
       intros t rest m H; exact (ftp_match_groups t rest m H) ].
  intros m sig Hm (T2 & T3 & T4 & T5 & N6 & D6).
  unfold Ftp.signature_of in Hm.
  destruct (List.length m <? 7)%nat; [discriminate|].
  injection Hm as <-. simpl.
  exact (conj N6 (conj D6 (conj T2 (conj T3 (conj T4 T5))))).
Qed.

(** A record that differs from the stored row in a non-null column is
    written over it. *)
Lemma saveToDB_differs (now : timestamp) (db : table) (sig : Signature)
    (r : Row) :
  lookup (SID sig) db = Some r -> differs r sig ->
  exists r',
    snd (saveToDB now db sig) = Updated /\
    lookup (SID sig) (fst (saveToDB now db sig)) = Some r' /\
    tracked r' = tracked_of sig.
Proof.
  intros L D. pose proof (lookup_found _ _ _ L) as Hs.
  destruct (saveToDB_present now db sig r L) as (pre & post & _ & Hpre & E).
  rewrite E, (differs_update_where now r sig Hs D). simpl.
  exists (update_set now r (excluded now sig)).
  split; [reflexivity|]. split; [|reflexivity].
  apply lookup_app_absent; [exact Hpre|]. simpl. rewrite Hs. apply sql_eq_same.
Qed.

(** X10. The two programs never agree on a row.  When a record of the
    message-bearing grammar and a record of the port-bearing grammar carry
    the same identity, each overwrites the row the other stored: [DstPort]
    is empty in the first and the identity in the second.  After the
    port-bearing record is saved the stored message is empty. *)
Theorem grammars_overwrite_each_other
    (ch cf : nat -> timestamp) (dh df dh' : table)
    (content_h file_h content_f file_f : string)
    (hs : list Signature) (h f : Signature)
    (now : timestamp) (db : table) (r : Row) :
  Http.parseFile ch dh content_h file_h = Some (dh', hs) ->
  In h hs ->
  In f (snd (Ftp.parseFile cf df content_f file_f)) ->
  SID h = SID f ->
  lookup (SID h) db = Some r ->
  (tracked r = tracked_of h ->
   exists r', snd (saveToDB now db f) = Updated /\
              lookup (SID f) (fst (saveToDB now db f)) = Some r' /\
              msg r' = Some EmptyString) /\
  (tracked r = tracked_of f ->
   snd (saveToDB now db h) = Updated).
Proof.
  intros Hh Inh Inf Hsid L.
  assert (Ph : DstPort h = EmptyString).
  { destruct (HttpFacts.parseFile_records ch dh content_h file_h)
      as (d & l & E & F).
    rewrite Hh in E. injection E as <- <-.
    assert (A : Forall (fun sig => DstPort sig = EmptyString) hs).
    { eapply Forall2_Forall_r with (P := fun _ => True); [|exact F|].
      - intros m sig Hm _.
        now apply HttpFacts.signature_of_fields in Hm
          as (_ & _ & _ & _ & _ & _ & _ & Hp & _).
      - apply Forall_forall. now intros. }
    rewrite Forall_forall in A. now apply A. }
  assert (Pf : DstPort f = SID f /\ Msg f = EmptyString).
  { assert (A : Forall (fun sig => DstPort sig = SID sig /\
                                   Msg sig = EmptyString)
                       (snd (Ftp.parseFile cf df content_f file_f))).
    { unfold Ftp.parseFile.
      eapply Forall2_Forall_r with (P := fun _ => True);
        [| apply FtpFacts.ftp_save_matches_records;
           apply (FindAllStringSubmatch_length Ftp.re Ftp.groups)
         | apply Forall_forall; now intros ].
      intros m sig Hm _. unfold Ftp.signature_of in Hm.
      destruct (List.length m <? 7)%nat; [discriminate|].
      injection Hm as <-. now split. }
    rewrite Forall_forall in A. now apply A. }
  assert (Nf : SID f <> EmptyString).
  { pose proof (ftp_sid_nonempty cf df content_f file_f) as A.
    rewrite Forall_forall in A. now apply A. }
  destruct Pf as [Pf Mf]. split.
  - intros T. rewrite Hsid in L.
    destruct (saveToDB_differs now db f r L) as (r' & O & L' & T').
    + exists 5, EmptyString. rewrite T. simpl. rewrite Ph, Pf.
      split; [reflexivity|]. intros E. now injection E.
    + exists r'. split; [exact O|]. split; [exact L'|].
      unfold tracked, tracked_of in T'. injection T' as _ _ _ _ _ _ -> _.
      now rewrite Mf.
  - intros T.
    destruct (saveToDB_differs now db h r L) as (r' & O & _).
    + exists 5, (SID f). rewrite T. simpl. rewrite Ph, Pf.
      split; [reflexivity|]. intros E. injection E as E. now symmetry in E.
    + exact O.
Qed.

Lemma grammars_overwrite_each_other_witness :
  (tracked (excluded 10%Z sig_a) = tracked_of sig_a ->
   exists r',
     snd (saveToDB 20%Z [excluded 10%Z sig_a]
            (mkSignature "tcp" "$EXTERNAL_NET" "any" "$HOME_NET" "80"
               "1000001" "1000001" EmptyString "b.rules")) = Updated /\
     lookup "1000001"
       (fst (saveToDB 20%Z [excluded 10%Z sig_a]
               (mkSignature "tcp" "$EXTERNAL_NET" "any" "$HOME_NET" "80"
                  "1000001" "1000001" EmptyString "b.rules"))) = Some r' /\
     msg r' = Some EmptyString) /\
  (tracked (excluded 10%Z sig_a)
   = tracked_of (mkSignature "tcp" "$EXTERNAL_NET" "any" "$HOME_NET" "80"
                   "1000001" "1000001" EmptyString "b.rules") ->
   snd (saveToDB 20%Z [excluded 10%Z sig_a] sig_a) = Updated).
Proof.
  apply (grammars_overwrite_each_other
           (fun _ => 1%Z) (fun _ => 2%Z) [] [] [excluded 1%Z sig_a]
           rule_text "a.rules" rule_text_ports "b.rules"
           [sig_a] sig_a
           (mkSignature "tcp" "$EXTERNAL_NET" "any" "$HOME_NET" "80"
              "1000001" "1000001" EmptyString "b.rules")
           20%Z [excluded 10%Z sig_a] (excluded 10%Z sig_a)).
  - vm_compute. reflexivity.
  - now left.
  - vm_compute. now left.
  - reflexivity.
  - reflexivity.
Defined.

End GrammarFacts.

(** ** The export, continued *)

Module ExporterMore.
Import Strs Store Exporter Samples.

Lemma render_acc (format : ExportFormat) (rows : list Row)
    (buf : list string) :
  render format rows buf =
    match render format rows [] with
    | inl e => inl e
    | inr out => inr (buf ++ out)
    end.
Proof.
  revert buf. induction rows as [|r rows IH]; intros buf; simpl.
  - now rewrite app_nil_r.
  - destruct (scan r) as [sig|]; [|reflexivity].
    destruct (line format sig) as [l|]; [|reflexivity].
    rewrite (IH (buf ++ [l])), (IH [l]).
    destruct (render format rows []); [reflexivity|].
    now rewrite <- app_assoc.
Qed.

(** A render that succeeds has produced the line of every row, in order. *)
Lemma render_lines (format : ExportFormat) (rows : list Row)
    (out : list string) :
  render format rows [] = inr out ->
  Forall2 (fun r l => exists sig, scan r = Some sig /\
                                  line format sig = Some l) rows out.
Proof.
  revert out. induction rows as [|r rows IH]; intros out; simpl.
  - intros H. injection H as <-. constructor.
  - destruct (scan r) as [sig|] eqn:S; [|discriminate].
    destruct (line format sig) as [l|] eqn:L; [|discriminate].
    rewrite render_acc.
    destruct (render format rows []) as [e|o]; [discriminate|].
    intros H. injection H as <-. simpl. constructor; [|now apply IH].
    now exists sig.
Qed.

Lemma line_supported (format : ExportFormat) (sig : Signature) :
  format = Suricata \/ format = Dionis -> exists l, line format sig = Some l.
Proof. intros [->| ->]; simpl; eexists; reflexivity. Qed.

(** With a supported format the loop fails only on a row that does not
    scan. *)
Lemma render_supported (format : ExportFormat) (rows : list Row) :
  format = Suricata \/ format = Dionis ->
  (Forall (fun r => scan r <> None) rows /\
   exists out, render format rows [] = inr out) \/
  (Exists (fun r => scan r = None) rows /\
   render format rows [] = inl ScanError).
Proof.
  intros Hf. induction rows as [|r rows IH]; simpl.
  - left. split; [constructor | now eexists].
  - destruct (scan r) as [sig|] eqn:S.
    + destruct (line_supported format sig Hf) as [l ->].
      rewrite render_acc.
      destruct IH as [[F [out ->]]|[E ->]].
      * left. split; [|now eexists].
        constructor; [now rewrite S | exact F].
      * right. split; [now apply Exists_cons_tl | reflexivity].
    + right. split; [now apply Exists_cons_hd | reflexivity].
Qed.

(** X11. A row whose [deleted_at] is set has no part in an export: with
    the row or without it, [exportSignatures] returns the same result and
    leaves the same files. *)
Theorem export_skips_deleted (pre post : table) (r : Row)
    (format : ExportFormat) (outputFile : string) (w : World) :
  deleted_at r <> None ->
  exportSignatures (pre ++ r :: post) format outputFile w
    = exportSignatures (pre ++ post) format outputFile w.
Proof.
  intros H. unfold exportSignatures.
  rewrite !filter_app. simpl.
  unfold live at 2. destruct (deleted_at r); [reflexivity | contradiction].
Qed.

Lemma export_skips_deleted_witness :
  exportSignatures ([row_blank_msg] ++ row_deleted :: [row_null_msg])
    Dionis "export_dionis.txt" fresh_world
  = exportSignatures ([row_blank_msg] ++ [row_null_msg])
      Dionis "export_dionis.txt" fresh_world.
Proof.
  apply (export_skips_deleted [row_blank_msg] [row_null_msg] row_deleted).
  discriminate.
Defined.

(** X12. An export that succeeds has written, at the output path, one line
    per live row and no other text: the lines of the live rows, each the
    rendering of its row, joined in the order of the rows. *)
Theorem export_one_line_per_row (db : table) (format : ExportFormat)
    (outputFile : string) (w w' : World) :
  exportSignatures db format outputFile w = (None, w') ->
  exists out,
    Forall2 (fun r l => exists sig, scan r = Some sig /\
                                    line format sig = Some l)
            (filter live db) out /\
    files w' outputFile = Some (Join out).
Proof.
  unfold exportSignatures.
  destruct (render format (filter live db) []) as [e|out] eqn:E;
    [discriminate|].
  intros H. injection H as <-. exists out.
  split; [now apply render_lines|].
  simpl. unfold write. now rewrite String.eqb_refl.
Qed.

Lemma export_one_line_per_row_witness :
  exists out,
    Forall2 (fun r l => exists sig, scan r = Some sig /\
                                    line Suricata sig = Some l)
            (filter live [row_blank_msg; row_deleted]) out /\
    files (snd (exportSignatures [row_blank_msg; row_deleted] Suricata
                  "export_suricata.txt" fresh_world))
          "export_suricata.txt" = Some (Join out).
Proof.
  apply (export_one_line_per_row [row_blank_msg; row_deleted] Suricata
           "export_suricata.txt" fresh_world).
  reflexivity.
Defined.

Lemma scan_some_iff (r : Row) :
  scan r <> None <->
  type_ r <> None /\ proto r <> None /\ src_ip r <> None /\
  dst_ip r <> None /\ sid r <> None.
Proof.
  unfold scan.
  destruct (type_ r), (proto r), (src_ip r), (dst_ip r), (sid r);
    split; intros H; try (now repeat split); try (now destruct H as (?&?&?&?&?));
    try (exfalso; now apply H).
Qed.

(** X13. With one of the two supported formats an export succeeds exactly
    when no live row has [NULL] in [type], [proto], [src_ip], [dst_ip] or
    [sid]; one such row fails the whole export, with the scan error.  A
    [NULL] in [msg] or [filename] fails nothing. *)
Theorem export_fails_on_null (db : table) (format : ExportFormat)
    (outputFile : string) (w : World) :
  format = Suricata \/ format = Dionis ->
  (fst (exportSignatures db format outputFile w) = None <->
   Forall (fun r => type_ r <> None /\ proto r <> None /\
                    src_ip r <> None /\ dst_ip r <> None /\
                    sid r <> None) (filter live db)) /\
  (fst (exportSignatures db format outputFile w) <> None ->
   fst (exportSignatures db format outputFile w) = Some ScanError).
Proof.
  intros Hf. unfold exportSignatures.
  destruct (render_supported format (filter live db) Hf)
    as [[F [out ->]]|[E ->]]; simpl.
  - split; [|intros H; now contradiction H].
    split; [|reflexivity]. intros _.
    eapply Forall_impl; [|exact F]. intros r. apply scan_some_iff.
  - split; [|reflexivity]. split; [discriminate|].
    intros F. exfalso.
    apply Exists_exists in E as (r & Hin & Hs).
    rewrite Forall_forall in F. apply F in Hin.
    now apply scan_some_iff in Hin.
Qed.

Lemma export_fails_on_null_witness :
  (fst (exportSignatures [row_blank_msg; row_null_type] Dionis
          "export_dionis.txt" fresh_world) = None <->
   Forall (fun r => type_ r <> None /\ proto r <> None /\
                    src_ip r <> None /\ dst_ip r <> None /\
                    sid r <> None)
          (filter live [row_blank_msg; row_null_type])) /\
  (fst (exportSignatures [row_blank_msg; row_null_type] Dionis
          "export_dionis.txt" fresh_world) <> None ->
   fst (exportSignatures [row_blank_msg; row_null_type] Dionis
          "export_dionis.txt" fresh_world) = Some ScanError).
Proof.
  apply (export_fails_on_null [row_blank_msg; row_null_type] Dionis
           "export_dionis.txt" fresh_world).
  now right.
Defined.

(** X14. The two exports of [main] stand or fall together: either both
    artifacts are written, each with one line per live row, or both
    exports fail with the scan error and neither artifact is touched. *)
Theorem main_both_or_neither (db : table) (w : World) :
  (exists out1 out2,
     main db w =
       (None, None,
        {| files := write "export_dionis.txt" (Join out2)
                      (write "export_suricata.txt" (Join out1) (files w));
           events := events w
                     ++ [Query; WriteFile "export_suricata.txt" (Join out1);
                         Query; WriteFile "export_dionis.txt" (Join out2)] |})
     /\ List.length out1 = List.length (filter live db)
     /\ List.length out2 = List.length (filter live db)) \/
  main db w =
    (Some ScanError, Some ScanError,
     {| files := files w; events := events w ++ [Query; Query] |}).
Proof.
  unfold main, exportSignatures.
  destruct (render_supported Suricata (filter live db) (or_introl eq_refl))
    as [[F [out1 E1]]|[E E1]];
  destruct (render_supported Dionis (filter live db) (or_intror eq_refl))
    as [[F' [out2 E2]]|[E' E2]]; rewrite E1, E2; simpl.
  - left. exists out1, out2. split.
    + now rewrite <- !app_assoc.
    + apply render_lines in E1, E2.
      apply Forall2_length in E1, E2. now split.
  - exfalso. apply Exists_exists in E' as (r & Hin & Hs).
    rewrite Forall_forall in F. now apply (F r Hin).
  - exfalso. apply Exists_exists in E as (r & Hin & Hs).
    rewrite Forall_forall in F'. now apply (F' r Hin).
  - right. now rewrite <- app_assoc.
Qed.

End ExporterMore.

(** ** Text handling *)

Module TextFacts.
Import Strs Regexp Store Samples StrsFacts.

Lemma HasPrefix_byte (x c : ascii) (t : string) :
  HasPrefix (String x t) (String c EmptyString) = Ascii.eqb c x.
Proof. destruct t; cbn [HasPrefix]; apply andb_true_r. Qed.

Lemma replace_byte_cons (a b x : ascii) (t : string) :
  replace_from 0 (String x t) (String a EmptyString) (String b EmptyString)
  = String (if Ascii.eqb a x then b else x)
           (replace_from 0 t (String a EmptyString) (String b EmptyString)).
Proof.
  cbn [replace_from]. rewrite HasPrefix_byte.
  now destruct (Ascii.eqb a x).
Qed.

(** X15. Replacing one byte by another, as [parseFile] does with line
    feeds and spaces, keeps the length of the text and leaves no occurrence
    of the replaced byte. *)
Theorem ReplaceAll_byte (s : string) (a b : ascii) :
  a <> b ->
  length (ReplaceAll s (String a EmptyString) (String b EmptyString))
    = length s /\
  Contains (ReplaceAll s (String a EmptyString) (String b EmptyString))
           (String a EmptyString) = false.
Proof.
  intros Hab. unfold ReplaceAll, Contains.
  assert (N : Ascii.eqb a b = false) by now apply Ascii.eqb_neq.
  induction s as [|x t [IHl IHc]].
  - split; reflexivity.
  - rewrite replace_byte_cons. split; [simpl; now rewrite IHl|].
    cbn [Index]. rewrite HasPrefix_byte.
    replace (Ascii.eqb a (if Ascii.eqb a x then b else x)) with false
      by (destruct (Ascii.eqb a x) eqn:E; now rewrite ?N, ?E).
    apply Z.leb_gt in IHc. apply Z.leb_gt.
    destruct (Index _ _ <? 0)%Z eqn:L; [lia|].
    apply Z.ltb_ge in L. lia.
Qed.

Lemma ReplaceAll_byte_witness :
  length (ReplaceAll ("a" ++ nl ++ "b") nl " ") = length ("a" ++ nl ++ "b")
  /\ Contains (ReplaceAll ("a" ++ nl ++ "b") nl " ") nl = false.
Proof.
  apply (ReplaceAll_byte ("a" ++ nl ++ "b") (byte 10) " "%char).
  discriminate.
Defined.

Lemma take_drop (n : nat) (s : string) : (take n s ++ drop n s)%string = s.
Proof.
  revert s. induction n as [|n IH]; intros [|x s]; simpl; try reflexivity.
  now rewrite IH.
Qed.

Lemma length_take (n : nat) (s : string) :
  n <= length s -> length (take n s) = n.
Proof.
  revert s. induction n as [|n IH]; intros [|x s]; simpl; intros H;
    try reflexivity; try lia.
  now rewrite IH by lia.
Qed.

(** X16. The slice expressions that cut the address list out of a message
    never go out of range, and the message emitted is no longer than the
    one captured; a marker that no closing bracket follows leaves the
    message as it is. *)
Theorem strip_ip_list_safe (m : string) :
  exists m',
    Http.strip_ip_list m = Some m' /\
    length m' <= length m /\
    (Contains m "]" = false -> m' = m).
Proof.
  unfold Http.strip_ip_list, Contains.
  destruct (0 <=? Index m "ip [")%Z eqn:C;
    [|exists m; split; [reflexivity | split; [lia | reflexivity]]].
  apply Z.leb_le in C.
  destruct (Index_range m "ip [") as [E|[_ E]]; [lia|]. simpl length in E.
  rewrite slice_from_ok by lia.
  set (start := Index m "ip [") in *.
  set (tail := drop (Z.to_nat start) m).
  assert (L : length tail = length m - Z.to_nat start)
    by (apply length_drop; lia).
  assert (B : (-1 <= Index tail "]"
               /\ Index tail "]" + 1 <= Z.of_nat (length tail))%Z).
  { destruct (Index_range tail "]") as [R|[R1 R2]]; [|simpl length in R2]; lia. }
  rewrite slice_to_ok by lia.
  rewrite slice_from_ok by lia.
  eexists. split; [reflexivity|]. split.
  - rewrite length_append, length_take, length_drop by lia. lia.
  - intros N. apply Z.leb_gt in N.
    assert (T : Index tail "]" = (-1)%Z).
    { destruct (Index_range tail "]") as [R|[R1 _]]; [exact R|].
      exfalso.
      assert (M : m = (take (Z.to_nat start) m ++ tail)%string)
        by (symmetry; apply take_drop).
      destruct (Index_range m "]") as [R|[R _]]; [|lia].
      clear - M R R1. revert R. rewrite M.
      generalize (take (Z.to_nat start) m) as pre. intros pre.
      induction pre as [|x pre IH]; simpl append.
      - lia.
      - cbn [Index]. destruct (HasPrefix _ _); [discriminate|].
        destruct (Index (pre ++ tail) "]" <? 0)%Z eqn:Q.
        + apply Z.ltb_lt in Q. intros _.
          destruct (Index_range (pre ++ tail) "]") as [R'|[R' _]];
            [now apply IH | lia].
        + apply Z.ltb_ge in Q. lia. }
    rewrite T.
    replace (Z.to_nat (-1 + start + 1)) with (Z.to_nat start) by lia.
    apply take_drop.
Qed.

Lemma split_no_sep (c : ascii) (h cur : string) :
  all_bytes (fun b => negb (Ascii.eqb b c)) h = true ->
  split_from 0 h (String c EmptyString) cur = [(cur ++ h)%string].
Proof.
  revert cur. induction h as [|x h IH]; intros cur; simpl all_bytes.
  - intros _. simpl. f_equal. clear. induction cur; simpl; congruence.
  - intros H. apply andb_prop in H as [Hx Hh].
    cbn [split_from]. rewrite HasPrefix_byte.
    apply negb_true_iff in Hx. rewrite Ascii.eqb_sym, Hx.
    rewrite (IH _ Hh). f_equal.
    clear. induction cur; simpl; congruence.
Qed.

Lemma split_first (c : ascii) (h p cur : string) :
  all_bytes (fun b => negb (Ascii.eqb b c)) h = true ->
  exists rest,
    split_from 0 (h ++ String c p) (String c EmptyString) cur
    = (cur ++ h)%string :: rest.
Proof.
  revert cur. induction h as [|x h IH]; intros cur; simpl all_bytes.
  - intros _. cbn [append split_from]. rewrite HasPrefix_byte, Ascii.eqb_refl.
    eexists. f_equal. clear. induction cur; simpl; congruence.
  - intros H. apply andb_prop in H as [Hx Hh].
    cbn [append split_from]. rewrite HasPrefix_byte.
    apply negb_true_iff in Hx. rewrite Ascii.eqb_sym, Hx.
    destruct (IH (cur ++ String x EmptyString)%string Hh) as [rest ->].
    exists rest. f_equal. clear. induction cur; simpl; congruence.
Qed.

(** X17. For an FTP URL whose host has no slash the address dialled is the
    host with port 21, whether or not a path follows the host. *)
Theorem dial_address_host (host path : string) :
  all_bytes (fun b => negb (Ascii.eqb b "/")) host = true ->
  Ftp.dial_address ("ftp://" ++ host ++ "/" ++ path)
    = Some (host ++ ":21")%string /\
  Ftp.dial_address ("ftp://" ++ host) = Some (host ++ ":21")%string.
Proof.
  intros H. unfold Ftp.dial_address, Split.
  assert (T : forall t, TrimPrefix ("ftp://" ++ t) "ftp://" = t)
    by (intros t; destruct t; reflexivity).
  rewrite !T. change ("/" ++ path)%string with (String "/" path). split.
  - destruct (split_first "/" host path EmptyString H) as [rest ->].
    reflexivity.
  - now rewrite (split_no_sep "/" host EmptyString H).
Qed.

Lemma dial_address_host_witness :
  Ftp.dial_address ("ftp://" ++ "ftp.example.org" ++ "/" ++ "pub/rules.tgz")
    = Some ("ftp.example.org" ++ ":21")%string /\
  Ftp.dial_address ("ftp://" ++ "ftp.example.org")
    = Some ("ftp.example.org" ++ ":21")%string.
Proof.
  apply (dial_address_host "ftp.example.org" "pub/rules.tgz"). reflexivity.
Defined.

End TextFacts.

(** ** A pass over an archive, continued *)

Module IngestMore.
Import Strs Regexp Store Samples StoreFacts StoreMore IngestFacts.

Lemma lookup_app_none (k : string) (db : table) (e : Row) :
  lookup k db = None -> holds (sql_eq (sid e) (Some k)) = false ->
  lookup k (db ++ [e]) = None.
Proof.
  induction db as [|r db IH]; simpl; intros Hl He.
  - now rewrite He.
  - destruct (holds (sql_eq (sid r) (Some k))); [discriminate|]. now apply IH.
Qed.

(** A pass of records of pairwise distinct identities, none of them in
    the table, appends one row per record. *)
Lemma Pass_fresh (db db' : table) (sigs : list Signature) :
  Pass db sigs db' ->
  NoDup (map SID sigs) ->
  Forall (fun s => lookup (SID s) db = None) sigs ->
  exists rows,
    db' = db ++ rows /\
    Forall2 (fun r s => exists now, r = excluded now s) rows sigs.
Proof.
  intros H. induction H as [db|db now sig sigs db' _ IH]; intros Hd Hn.
  - exists []. split; [now rewrite app_nil_r | constructor].
  - simpl in Hd. apply NoDup_cons_iff in Hd as [Hnew Hd].
    apply Forall_cons_iff in Hn as [Hs Hn].
    rewrite (saveToDB_absent now db sig Hs) in IH. simpl in IH.
    destruct (IH Hd) as (rows & -> & F).
    + rewrite Forall_forall in *. intros s Hin.
      apply lookup_app_none; [now apply Hn|].
      simpl. destruct (String.eqb (SID sig) (SID s)) eqn:E; [|reflexivity].
      apply String.eqb_eq in E. exfalso. apply Hnew. rewrite E.
      now apply in_map.
    + exists (excluded now sig :: rows). split; [now rewrite <- app_assoc|].
      constructor; [now exists now | exact F].
Qed.

(** The last record of an identity in a pass is the one the table keeps. *)
Lemma Pass_last_wins (l1 l2 : list Signature) (sig : Signature)
    (db db' : table) :
  Pass db (l1 ++ sig :: l2) db' ->
  ~ In (SID sig) (map SID l2) ->
  settled db' sig.
Proof.
  intros H Hn. revert db H. induction l1 as [|a l1 IH]; intros db H;
    inversion H; subst.
  - eapply Pass_settled_frame; [eassumption | apply saveToDB_settles |].
    intros s Hs E. apply Hn. rewrite <- E. now apply in_map.
  - eapply IH. eassumption.
Qed.

Lemma settled_not_differs (db : table) (sig : Signature) :
  settled db sig ->
  exists r, lookup (SID sig) db = Some r /\ ~ differs r sig.
Proof.
  intros H. apply settled_iff in H as (r & L & W).
  exists r. split; [exact L|]. intros D.
  rewrite (differs_update_where 0%Z r sig (lookup_found _ _ _ L) D) in W.
  discriminate.
Qed.

Lemma lookup_app_found (k : string) (db rows : table) (r : Row) :
  lookup k db = Some r -> lookup k (db ++ rows) = Some r.
Proof.
  induction db as [|x db IH]; simpl; [discriminate|].
  destruct (holds (sql_eq (sid x) (Some k))); [easy | exact IH].
Qed.

Lemma lookup_app_absent_l (k : string) (db rows : table) :
  lookup k db = None -> lookup k (db ++ rows) = lookup k rows.
Proof.
  induction db as [|x db IH]; simpl; [reflexivity|].
  destruct (holds (sql_eq (sid x) (Some k))); [discriminate | exact IH].
Qed.

Lemma lookup_fresh_rows (rows : table) (sigs : list Signature)
    (s : Signature) :
  Forall2 (fun r s => exists now, r = excluded now s) rows sigs ->
  NoDup (map SID sigs) -> In s sigs ->
  exists now, lookup (SID s) rows = Some (excluded now s).
Proof.
  intros F. induction F as [|r a rows sigs [now ->] _ IH]; intros Hd Hin.
  - destruct Hin.
  - simpl in Hd. apply NoDup_cons_iff in Hd as [Hnew Hd].
    destruct Hin as [->|Hin].
    + exists now. simpl. now rewrite String.eqb_refl.
    + destruct (IH Hd Hin) as [t L]. exists t. simpl.
      destruct (String.eqb (SID a) (SID s)) eqn:E; [|exact L].
      apply String.eqb_eq in E. exfalso. apply Hnew. rewrite E.
      now apply in_map.
Qed.

(** What a pass of new records does to the table. *)
Lemma Pass_fresh_rows (db db' : table) (sigs : list Signature) :
  Pass db sigs db' ->
  NoDup (map SID sigs) ->
  Forall (fun s => lookup (SID s) db = None) sigs ->
  List.length db' = List.length db + List.length sigs /\
  (forall k r, lookup k db = Some r -> lookup k db' = Some r) /\
  (forall s, In s sigs ->
     exists now, lookup (SID s) db' = Some (excluded now s)).
Proof.
  intros P Hd Hn.
  destruct (Pass_fresh db db' sigs P Hd Hn) as (rows & -> & F).
  split; [|split].
  - rewrite length_app. f_equal. now apply Forall2_length in F.
  - intros k r L. now apply lookup_app_found.
  - intros s Hin. rewrite Forall_forall in Hn.
    rewrite lookup_app_absent_l by now apply Hn.
    now apply (lookup_fresh_rows rows sigs).
Qed.

(** X18. An archive whose records have pairwise distinct identities, none
    of them in the table yet, adds one row per record and touches no other
    row: the table grows by the number of records, every row found before
    is found unchanged, and under the identity of every record there is a
    row that is the row an insert of that record makes (its values, one
    time for [created_at] and [updated_at], no deletion mark). *)
Theorem archive_fresh_rows (db : table) (sigs : list Signature) :
  NoDup (map SID sigs) ->
  Forall (fun s => lookup (SID s) db = None) sigs ->
  (forall c j members db',
     Http.processArchive c j db members = Some (db', sigs) ->
     List.length db' = List.length db + List.length sigs /\
     (forall k r, lookup k db = Some r -> lookup k db' = Some r) /\
     (forall s, In s sigs ->
        exists now, lookup (SID s) db' = Some (excluded now s))) /\
  (forall c j members,
     snd (Ftp.processArchive c j db members) = sigs ->
     List.length (fst (Ftp.processArchive c j db members))
       = List.length db + List.length sigs /\
     (forall k r, lookup k db = Some r ->
        lookup k (fst (Ftp.processArchive c j db members)) = Some r) /\
     (forall s, In s sigs ->
        exists now, lookup (SID s) (fst (Ftp.processArchive c j db members))
                    = Some (excluded now s))).
Proof.
  intros Hd Hn. split.
  - intros c j members db' H. apply http_processArchive_Pass in H.
    now apply Pass_fresh_rows.
  - intros c j members H.
    pose proof (ftp_processArchive_Pass members c j db) as P.
    rewrite H in P. now apply Pass_fresh_rows.
Qed.

Lemma archive_fresh_rows_witness :
  List.length (fst http_after_row)
    = List.length [row_deleted] + List.length (snd http_after_row) /\
  (forall k r, lookup k [row_deleted] = Some r ->
               lookup k (fst http_after_row) = Some r) /\
  (forall s, In s (snd http_after_row) ->
     exists now, lookup (SID s) (fst http_after_row) = Some (excluded now s)).
Proof.
  assert (H1 : NoDup (map SID (snd http_after_row))).
  { vm_compute. constructor; [intros [H|[]]; discriminate|].
    constructor; [intros []|constructor]. }
  assert (H2 : Forall (fun s => lookup (SID s) [row_deleted] = None)
                      (snd http_after_row)).
  { vm_compute. repeat constructor. }
  apply (proj1 (archive_fresh_rows [row_deleted] (snd http_after_row) H1 H2)
               first_run 0 archive_http (fst http_after_row)).
  vm_compute. reflexivity.
Defined.

(** X19. Of the records of an archive that share an identity the last one
    decides: after the pass the row under that identity has no non-null
    tracked column that differs from the last record. *)
Theorem archive_last_record_wins (l1 l2 : list Signature) (sig : Signature) :
  ~ In (SID sig) (map SID l2) ->
  (forall c j db members db',
     Http.processArchive c j db members = Some (db', l1 ++ sig :: l2) ->
     exists r, lookup (SID sig) db' = Some r /\ ~ differs r sig) /\
  (forall c j db members,
     snd (Ftp.processArchive c j db members) = l1 ++ sig :: l2 ->
     exists r, lookup (SID sig) (fst (Ftp.processArchive c j db members))
               = Some r /\ ~ differs r sig).
Proof.
  intros Hn. split.
  - intros c j db members db' H. apply http_processArchive_Pass in H.
    apply settled_not_differs. now apply (Pass_last_wins l1 l2 sig db).
  - intros c j db members H.
    pose proof (ftp_processArchive_Pass members c j db) as P.
    rewrite H in P.
    apply settled_not_differs. now apply (Pass_last_wins l1 l2 sig db).
Qed.

Lemma archive_last_record_wins_witness :
  exists r,
    lookup "1000001" (fst twice_after) = Some r /\
    ~ differs r (mkSignature "tcp" "10.0.0.1" "10.0.0.2" EmptyString
                   "test rule" EmptyString "1000001" "test rule"
                   "new/a.rules").
Proof.
  apply (proj1 (archive_last_record_wins
                  [mkSignature "tcp" "10.0.0.1" "10.0.0.2" EmptyString
                     "test rule" EmptyString "1000001" "test rule"
                     "old/a.rules"]
                  []
                  (mkSignature "tcp" "10.0.0.1" "10.0.0.2" EmptyString
                     "test rule" EmptyString "1000001" "test rule"
                     "new/a.rules")
                  (fun H : In "1000001" [] => match H with end))
               first_run 0 [] archive_twice (fst twice_after)).
  vm_compute. reflexivity.
Defined.

End IngestMore.
